(** * analyze-stacksplit: the classification engine of [analyzer.go]

    A shallow embedding of [recordFunc], [analyze] and the scanning loop of
    [examineFile], together with the four line patterns the loop matches
    every line against, and the properties of the classification that the
    repository's description states. *)

From Stdlib Require Import ZArith Ascii String List Lia Permutation.
From stdpp Require Import gmap strings list fin_maps pretty sorting.

Open Scope Z_scope.

(** ** Regular expressions

    The fragment of Go's [regexp] syntax that the four patterns of
    [examineFile] use.  Every pattern has the shape [^ ... $], every
    quantifier in them applies to a single character class and is greedy,
    and there is no alternation, so a match attempt starts at offset 0 only
    and the leftmost-first match that Go reports is the one found by trying
    the longest repetition first and backing off.

    Go matches runes of the UTF-8 decoding, the model matches bytes.  The two
    agree on these patterns: every byte of a multi-byte rune (and every
    invalid byte) is at least 0x80, so it is in [\S] and in [.], and it is
    none of the ASCII literals of the patterns. *)
Module Regexp.

Inductive cclass : Type :=
| Space      (* \s  = [\t\n\f\r ] *)
| NonSpace   (* \S  *)
| AnyChar.   (* .   = anything but \n (no s flag) *)

Definition is_space (c : ascii) : bool :=
  match nat_of_ascii c with
  | 9%nat | 10%nat | 12%nat | 13%nat | 32%nat => true
  | _ => false
  end.

Definition cc_test (cl : cclass) (c : ascii) : bool :=
  match cl with
  | Space => is_space c
  | NonSpace => negb (is_space c)
  | AnyChar => negb (Nat.eqb (nat_of_ascii c) 10)
  end.

Inductive regex : Type :=
| Chr (c : ascii)            (* a literal, also an escaped one: \< \> \: *)
| Star (cl : cclass)         (* cl*  *)
| Plus (cl : cclass)         (* cl+  *)
| One (cl : cclass)          (* cl   *)
| Cat (r1 r2 : regex)
| Group (r : regex).         (* ( r ) *)

(** A literal word is the concatenation of its characters. *)
Fixpoint Word (w : list ascii) (r : regex) : regex :=
  match w with
  | [] => r
  | c :: w' => Cat (Chr c) (Word w' r)
  end.

Section Matcher.
Context {R : Type}.

(** Greedy repetition of a class: the longest run first, then shorter
    ones, each time handing the rest to the continuation. *)
Fixpoint star (p : ascii -> bool) (s : list ascii)
         (k : list ascii -> option R) : option R :=
  match s with
  | c :: s' =>
      if p c then
        match star p s' k with
        | Some r => Some r
        | None => k s
        end
      else k s
  | [] => k []
  end.

(** [rmatch r s caps k]: match [r] at the head of [s]; [caps] are the
    submatches of the groups closed so far. *)
Fixpoint rmatch (r : regex) (s : list ascii) (caps : list (list ascii))
         (k : list ascii -> list (list ascii) -> option R) : option R :=
  match r with
  | Chr c =>
      match s with
      | c' :: s' => if Ascii.eqb c c' then k s' caps else None
      | [] => None
      end
  | One cl =>
      match s with
      | c' :: s' => if cc_test cl c' then k s' caps else None
      | [] => None
      end
  | Star cl => star (cc_test cl) s (fun s' => k s' caps)
  | Plus cl =>
      match s with
      | c' :: s' =>
          if cc_test cl c' then star (cc_test cl) s' (fun s'' => k s'' caps)
          else None
      | [] => None
      end
  | Cat r1 r2 =>
      rmatch r1 s caps (fun s' caps' => rmatch r2 s' caps' k)
  | Group r1 =>
      rmatch r1 s caps
             (fun s' caps' =>
                k s' (caps' ++ [take (length s - length s') s]))
  end.
End Matcher.

(** [FindStringSubmatch] for a pattern [^ r $]: [None] (Go's nil) when
    the line does not match, otherwise the slice whose element 0 is the
    whole match, here the line, followed by the submatches of the groups
    in order. *)
Definition FindStringSubmatch (r : regex) (line : string)
  : option (list string) :=
  rmatch r (list_ascii_of_string line) []
         (fun rest caps =>
            match rest with
            | [] => Some (line :: map string_of_list_ascii caps)
            | _ :: _ => None
            end).

(** The strings a pattern describes, with the submatches of its groups:
    the declarative reading of the syntax, used to reason about
    [rmatch]. *)
Inductive lang : regex -> list ascii -> list (list ascii) -> Prop :=
| lang_Chr c : lang (Chr c) [c] []
| lang_One cl c : cc_test cl c = true -> lang (One cl) [c] []
| lang_Star cl w :
    Forall (fun c => cc_test cl c = true) w -> lang (Star cl) w []
| lang_Plus cl c w :
    cc_test cl c = true ->
    Forall (fun c => cc_test cl c = true) w -> lang (Plus cl) (c :: w) []
| lang_Cat r1 r2 w1 w2 g1 g2 :
    lang r1 w1 g1 -> lang r2 w2 g2 -> lang (Cat r1 r2) (w1 ++ w2) (g1 ++ g2)
| lang_Group r w g : lang r w g -> lang (Group r) w (g ++ [w]).

(** Drop the leading characters of a class. *)
Fixpoint skip (p : ascii -> bool) (s : list ascii) : list ascii :=
  match s with
  | c :: s' => if p c then skip p s' else s
  | [] => []
  end.

(** [skip p] leaves a string alone that does not begin in the class. *)
Definition stops (p : ascii -> bool) (s : list ascii) : Prop :=
  match s with
  | c :: _ => p c = false
  | [] => True
  end.

Definition nonspace (c : ascii) : bool := negb (is_space c).

(** What is left of a line after its leading blanks, its first field and
    the blanks after that: the line from its second field on. *)
Definition from_field2 (s : list ascii) : list ascii :=
  skip is_space (skip nonspace (skip is_space s)).

End Regexp.

Import Regexp.

Definition lit (w : string) (r : regex) : regex :=
  Word (list_ascii_of_string w) r.

(** The patterns compiled at the top of the scanning loop. *)

(** [^\S+\s\<(\S+)\>\:\s*$] *)
Definition fnstart : regex :=
  Cat (Plus NonSpace) (Cat (One Space)
    (lit "<" (Cat (Group (Plus NonSpace)) (lit ">:" (Star Space))))).

(** [^\s*\S+:\s+callq(.+)$] *)
Definition anycallre : regex :=
  Cat (Star Space) (Cat (Plus NonSpace) (lit ":" (Cat (Plus Space)
    (lit "callq" (Group (Plus AnyChar)))))).

(** [^\s*\S+\:\s+callq\s+\S+\s+\<(\S+)\>\s*$] *)
Definition dircallre : regex :=
  Cat (Star Space) (Cat (Plus NonSpace) (lit ":" (Cat (Plus Space)
    (lit "callq" (Cat (Plus Space) (Cat (Plus NonSpace) (Cat (Plus Space)
      (lit "<" (Cat (Group (Plus NonSpace)) (lit ">" (Star Space))))))))))).

(** [^\s*\S+\:\s+jmpq\s+\S+\s+\<\S+@plt\>\s*$] *)
Definition pltjumpre : regex :=
  Cat (Star Space) (Cat (Plus NonSpace) (lit ":" (Cat (Plus Space)
    (lit "jmpq" (Cat (Plus Space) (Cat (Plus NonSpace) (Cat (Plus Space)
      (lit "<" (Cat (Plus NonSpace) (lit "@plt>" (Star Space))))))))))).

(** ** The function table *)

Inductive FnType : Type :=
| Unknown      (* 0: the zero value, never stored on purpose *)
| Leaf         (* leaf function (no calls) *)
| NoSplit      (* vanilla non-leaf (no morestack calls) *)
| SplitSmall   (* non-leaf with regular morestack call *)
| SplitLarge.  (* non-leaf with call to morestack_non_split *)

#[export] Instance FnType_eq_dec : EqDecision FnType.
Proof. solve_decision. Defined.

(** The integer behind each constant of the [iota] block. *)
Definition FnType_int (t : FnType) : Z :=
  match t with
  | Unknown => 0
  | Leaf => 1
  | NoSplit => 2
  | SplitSmall => 3
  | SplitLarge => 4
  end.

(** [int64] arithmetic wraps around. *)
Definition int64_min : Z := - 2 ^ 63.
Definition int64_max : Z := 2 ^ 63 - 1.
Definition wrap64 (z : Z) : Z := (z + 2 ^ 63) mod 2 ^ 64 - 2 ^ 63.
Definition add64 (a b : Z) : Z := wrap64 (a + b).

Record astate : Type := mk_astate {
  seenShort : bool;
  seenLong : bool;
  seenCall : bool;
  funcs : gmap string FnType;
  collisions : Z
}.

(** The disposition [recordFunc] computes from the flags. *)
Definition disposition (s : astate) : FnType :=
  if seenLong s then SplitLarge
  else if seenShort s then SplitSmall
  else if seenCall s then NoSplit
  else Leaf.

(** [fmt.Sprintf("%s%s%d", fname, "%", n)] *)
Definition collision_name (fname : string) (n : Z) : string :=
  fname +:+ "%" +:+ pretty n.

Definition recordFunc (s : astate) (fname : string) : astate :=
  let disp := disposition s in
  match funcs s !! fname with
  | Some odisp =>
      let n := add64 (collisions s) 1 in
      let fname' := collision_name fname n in
      let disp' := if FnType_int odisp >? FnType_int disp then odisp else disp in
      {| seenShort := false; seenLong := false; seenCall := false;
         funcs := <[fname' := disp']> (funcs s);
         collisions := n |}
  | None =>
      {| seenShort := false; seenLong := false; seenCall := false;
         funcs := <[fname := disp]> (funcs s);
         collisions := collisions s |}
  end.

(** ** Aggregation

    [analyze] ranges over the map, in an order Go leaves unspecified, and
    stops the process at the first [Unknown] entry it meets. *)
Inductive analysis : Type :=
| Counts (leaves nonsplit shortsplit longsplit : Z)
| Fatal (msg : string).

Fixpoint analyze_loop (entries : list (string * FnType))
         (lv ns short long : Z) : analysis :=
  match entries with
  | [] => Counts lv ns short long
  | (fn, disp) :: rest =>
      match disp with
      | Unknown => Fatal ("corrupted funcs table entry at " +:+ fn)
      | Leaf => analyze_loop rest (add64 lv 1) ns short long
      | NoSplit => analyze_loop rest lv (add64 ns 1) short long
      | SplitSmall => analyze_loop rest lv ns (add64 short 1) long
      | SplitLarge => analyze_loop rest lv ns short (add64 long 1)
      end
  end.

(** The pass over the entries in a given iteration order. *)
Definition analyze_entries (entries : list (string * FnType)) : analysis :=
  analyze_loop entries 0 0 0 0.

(** An iteration order of the table: any arrangement of its entries. *)
Definition iteration_of (s : astate) (entries : list (string * FnType)) : Prop :=
  entries ≡ₚ map_to_list (funcs s).

Definition analyze (s : astate) : analysis :=
  analyze_entries (map_to_list (funcs s)).

(** ** The scanning loop of [examineFile]

    The loop reads the lines the scanner delivers; [curfunc] is its local
    variable, [state] the accumulator. *)
Record scan : Type := mk_scan {
  state : astate;
  curfunc : string
}.

Definition set_seenCall (s : astate) : astate :=
  {| seenShort := seenShort s; seenLong := seenLong s; seenCall := true;
     funcs := funcs s; collisions := collisions s |}.

Definition set_seenShort (s : astate) : astate :=
  {| seenShort := true; seenLong := seenLong s; seenCall := seenCall s;
     funcs := funcs s; collisions := collisions s |}.

Definition set_seenLong (s : astate) : astate :=
  {| seenShort := seenShort s; seenLong := true; seenCall := seenCall s;
     funcs := funcs s; collisions := collisions s |}.

(** [m[1]] of a submatch slice. *)
Definition submatch1 (m : list string) : string := nth 1 m "".

(** Start of a new function: record the old one, open the new one. *)
Definition startFunc (sc : scan) (line : string) : scan :=
  match FindStringSubmatch fnstart line with
  | Some matched =>
      {| state := if decide (curfunc sc = "") then state sc
                  else recordFunc (state sc) (curfunc sc);
         curfunc := submatch1 matched |}
  | None => sc
  end.

Definition pltJump (s : astate) (line : string) : astate :=
  match FindStringSubmatch pltjumpre line with
  | Some _ => set_seenCall s
  | None => s
  end.

Definition callLine (s : astate) (line : string) : astate :=
  match FindStringSubmatch dircallre line with
  | Some dircallmatch =>
      let tgt := submatch1 dircallmatch in
      let s := set_seenCall s in
      if decide (tgt = "__morestack") then set_seenShort s
      else if decide (tgt = "__morestack_non_split") then set_seenLong s
      else s
  | None =>
      match FindStringSubmatch anycallre line with
      | Some _ => set_seenCall s
      | None => s
      end
  end.

(** One iteration of the loop body. *)
Definition scanLine (sc : scan) (line : string) : scan :=
  let sc := startFunc sc line in
  {| state := callLine (pltJump (state sc) line) line;
     curfunc := curfunc sc |}.

Definition init_astate : astate :=
  {| seenShort := false; seenLong := false; seenCall := false;
     funcs := ∅; collisions := 0 |}.

Definition init_scan : scan := {| state := init_astate; curfunc := "" |}.

Definition scanFrom (sc : scan) (lines : list string) : scan :=
  fold_left scanLine lines sc.

Definition scanLines (lines : list string) : scan := scanFrom init_scan lines.

(** After the loop: the final function. *)
Definition finish (sc : scan) : astate :=
  if decide (curfunc sc = "") then state sc
  else recordFunc (state sc) (curfunc sc).

(** The accumulator handed to [analyze] for a stream of lines. *)
Definition examineLines (lines : list string) : astate :=
  finish (scanLines lines).

(** ** Vocabulary of the description

    The kinds of lines are the matches of the four patterns, as the loop
    tests them. *)
Definition is_match (r : regex) (line : string) : bool :=
  match FindStringSubmatch r line with Some _ => true | None => false end.

Definition is_fnstart (line : string) : bool := is_match fnstart line.
Definition is_pltjump (line : string) : bool := is_match pltjumpre line.
Definition is_anycall (line : string) : bool := is_match anycallre line.

(** The symbol a direct-call line targets. *)
Definition dircall_target (line : string) : option string :=
  submatch1 <$> FindStringSubmatch dircallre line.

Definition calls (sym : string) (line : string) : bool :=
  bool_decide (dircall_target line = Some sym).

(** A call-relevant line: a direct call, a generic call or a PLT jump. *)
Definition is_call (line : string) : bool :=
  is_pltjump line || bool_decide (is_Some (dircall_target line))
  || is_anycall line.

(** The category the description assigns to a function body. *)
Definition body_category (body : list string) : FnType :=
  if existsb (calls "__morestack_non_split") body then SplitLarge
  else if existsb (calls "__morestack") body then SplitSmall
  else if existsb is_call body then NoSplit
  else Leaf.

(** The flags as [recordFunc] leaves them. *)
Definition flags_clear (s : astate) : Prop :=
  seenShort s = false /\ seenLong s = false /\ seenCall s = false.

(** The lines before a function start leak into the function they open
    when none of them starts a function and one of them is a call. *)
Definition leaks (pre : list string) : bool :=
  negb (existsb is_fnstart pre) && existsb is_call pre.

(** The severity order Leaf < NoSplit < SplitSmall < SplitLarge (with the
    zero value below them all), and what it is to be the maximum of two
    categories. *)
Definition FnType_le (a b : FnType) : Prop := FnType_int a <= FnType_int b.

Definition is_max (m a b : FnType) : Prop :=
  (m = a \/ m = b) /\ FnType_le a m /\ FnType_le b m.

(** The number of entries in a category, of a list of entries and of a
    table. *)
Definition count_of (t : FnType) (entries : list (string * FnType)) : Z :=
  Z.of_nat (length (filter (λ kv, kv.2 = t) entries)).

Definition tally (t : FnType) (m : gmap string FnType) : Z :=
  count_of t (map_to_list m).

(** No entry of the table holds the zero value. *)
Definition table_ok (m : gmap string FnType) : Prop :=
  map_Forall (λ _ v, v <> Unknown) m.

#[export] Instance table_ok_dec m : Decision (table_ok m).
Proof. unfold table_ok. apply _. Defined.

(** [recordFunc] is about to find its name in the table: the loop is at a
    function start with a function open whose name is a key already. *)
Definition collides (sc : scan) (line : string) : bool :=
  is_fnstart line && bool_decide (curfunc sc <> "")
  && bool_decide (is_Some (funcs (state sc) !! curfunc sc)).

(** The collisions met while scanning [lines] from [sc]. *)
Fixpoint collisions_from (sc : scan) (lines : list string) : nat :=
  match lines with
  | [] => 0%nat
  | line :: rest =>
      ((if collides sc line then 1 else 0)
       + collisions_from (scanLine sc line) rest)%nat
  end.

(** The names on the function-start lines of a stream, in order: each
    line opens one function, and each opened function is finalized once. *)
Definition function_names (lines : list string) : list string :=
  omap (λ l, submatch1 <$> FindStringSubmatch fnstart l) lines.

Definition functions_seen (lines : list string) : nat :=
  length (function_names lines).

(** The sum of the counts [analyze] returns. *)
Definition total (a : analysis) : option Z :=
  match a with
  | Counts lv ns short long => Some (lv + ns + short + long)
  | Fatal _ => None
  end.

Definition TAB : string := String (ascii_of_nat 9) EmptyString.


(** ** Streams of lines *)

Definition insn (addr text : string) : string := addr +:+ TAB +:+ text.

(** Scenario A of the description. *)
Definition scenarioA : list string :=
  [ "0000000000001000 <foo>:";
    "  1001:" +:+ TAB +:+ "callq  2000 <__morestack>";
    "0000000000002000 <bar>:" ].

(** Two names, each defined twice. *)
Definition stream_a_a_b_b : list string :=
  [ "0000000000001000 <a>:"; "0000000000001010 <a>:";
    "0000000000001020 <b>:"; "0000000000001030 <b>:" ].

(** A function literally named [f%1], then two named [f]. *)
Definition stream_shadow : list string :=
  [ "0000000000001000 <f%1>:";
    insn "    1000:" "callq  2000 <__morestack>";
    "0000000000001010 <f>:";
    "0000000000001020 <f>:" ].

(** What objdump prints for a file that is named [a: callq b] and holds
    one function, which calls nothing. *)
Definition stream_header : list string :=
  [ "";
    "a: callq b:     file format elf64-x86-64";
    "";
    "";
    "Disassembly of section .text:";
    "";
    "0000000000001000 <foo>:";
    insn "    1000:" "retq" ].

(** A call to the short helper before any function start. *)
Definition stream_early_call : list string :=
  [ insn "    0ff0:" "callq  2000 <__morestack>";
    "0000000000001000 <foo>:" ].

(** The same, before a function whose body is one PLT jump. *)
Definition stream_early_call_plt : list string :=
  [ insn "    0ff0:" "callq  2000 <__morestack>";
    "0000000000001000 <foo>:";
    insn "    1000:" "jmpq   3000 <puts@plt>" ].

(** A call to the long helper before any function start, then a function
    whose body calls the short helper and makes an indirect call, in
    either order. *)
Definition short_call : string := insn "    1000:" "callq  2000 <__morestack>".
Definition generic_call : string := insn "    1005:" "callq  *%rax".

Definition body_short_generic : list string := [short_call; generic_call].
Definition body_generic_short : list string := [generic_call; short_call].

Definition stream_early_long (body : list string) : list string :=
  insn "    0ff0:" "callq  2000 <__morestack_non_split>"
  :: "0000000000001000 <foo>:" :: body.

(** ** Fields of a line

    The patterns cut a line into fields separated by blanks; these
    functions name the pieces the patterns look at. *)

(** The longest prefix in a class. *)
Fixpoint run (p : ascii -> bool) (s : list ascii) : list ascii :=
  match s with
  | c :: s' => if p c then c :: run p s' else []
  | [] => []
  end.

(** From the start of a field to the start of the next one. *)
Definition next_field (s : list ascii) : list ascii :=
  skip is_space (skip nonspace s).

(** The text of a field [<...] between its first character and the last
    [close] characters. *)
Definition bracketed (close : nat) (s : list ascii) : list ascii :=
  let x := run nonspace (tail s) in take (length x - close) x.

(** The name a function-start line carries, and the symbol a direct call
    names: the bracketed text of the second, respectively fourth, field. *)
Definition fnstart_name (w : list ascii) : list ascii :=
  bracketed 2 (from_field2 w).

Definition dircall_symbol (w : list ascii) : list ascii :=
  bracketed 1 (next_field (next_field (from_field2 w))).

(** Blank text, text without a blank, and their non-empty versions. *)
Definition blank (w : list ascii) : Prop :=
  Forall (fun c => is_space c = true) w.

Definition solid (w : list ascii) : Prop :=
  Forall (fun c => nonspace c = true) w.

Definition blanks (w : list ascii) : Prop := w <> [] /\ blank w.

Definition token (w : list ascii) : Prop := w <> [] /\ solid w.

(** Text [.+] accepts: non-empty, without a newline. *)
Definition one_line (w : list ascii) : Prop :=
  w <> [] /\ Forall (fun c => cc_test AnyChar c = true) w.

Definition chars (s : string) : list ascii := list_ascii_of_string s.
Definition text (w : list ascii) : string := string_of_list_ascii w.

(** The lines each pattern describes, field by field. *)

(** [addr <name>:], with one blank between, and blanks allowed at the
    end only. *)
Definition fnstart_shape (w name : list ascii) : Prop :=
  exists addr b trail,
    token addr /\ is_space b = true /\ token name /\ blank trail
    /\ w = addr ++ b :: "<"%char :: name ++ chars ">:" ++ trail.

(** [addr: callq operand <tgt>], blanks allowed around. *)
Definition dircall_shape (w tgt : list ascii) : Prop :=
  exists w0 addr w1 w2 opnd w3 trail,
    blank w0 /\ token addr /\ blanks w1 /\ blanks w2 /\ token opnd
    /\ blanks w3 /\ token tgt /\ blank trail
    /\ w = w0 ++ addr ++ ":"%char :: w1 ++ chars "callq" ++ w2 ++ opnd
           ++ w3 ++ "<"%char :: tgt ++ ">"%char :: trail.

(** [addr: jmpq operand <sym@plt>], blanks allowed around. *)
Definition pltjump_shape (w : list ascii) : Prop :=
  exists w0 addr w1 w2 opnd w3 sym trail,
    blank w0 /\ token addr /\ blanks w1 /\ blanks w2 /\ token opnd
    /\ blanks w3 /\ token sym /\ blank trail
    /\ w = w0 ++ addr ++ ":"%char :: w1 ++ chars "jmpq" ++ w2 ++ opnd
           ++ w3 ++ "<"%char :: sym ++ chars "@plt>" ++ trail.

(** [addr: callq] followed at once by any non-empty text. *)
Definition anycall_shape (w rest : list ascii) : Prop :=
  exists w0 addr w1,
    blank w0 /\ token addr /\ blanks w1 /\ one_line rest
    /\ w = w0 ++ addr ++ ":"%char :: w1 ++ chars "callq" ++ rest.

(** The text a generic-call line has after [callq]. *)
Definition anycall_rest (w : list ascii) : list ascii := drop 5 (from_field2 w).

(** A line the scanner can deliver holds no newline. *)
Definition newline_free (line : string) : Prop :=
  Forall (fun c => cc_test AnyChar c = true) (chars line).

(** A key with a percent sign in it, as every synthetic key has. *)
Definition has_percent (k : string) : bool :=
  existsb (Ascii.eqb "%"%char) (chars k).

(** A line none of the four patterns matches. *)
Definition unmatched (line : string) : bool :=
  negb (is_fnstart line) && negb (is_call line).

(** ** The report of [examineFile]

    What [examineFile] prints on standard output after the scanning
    loop: the four counts, and in detail mode the names of each category.
    Each pass over the map has an iteration order of its own. *)

Definition NL : string := String (ascii_of_nat 10) EmptyString.

(** [sort.Strings]: ascending, strings compared byte by byte; the result
    is the one ascending arrangement of the names, whatever the sorting
    algorithm. *)
Definition sort_Strings (fns : list string) : list string :=
  merge_sort String.le fns.

Definition typs : list FnType := [Leaf; NoSplit; SplitSmall; SplitLarge].

Definition cats : list string :=
  ["Leaf"; "NoSplit"; "MoreStack"; "MoreStackNonSplit"].

(** The inner loop of the detail pass: the names of the entries of a
    category, in iteration order. *)
Definition collect (typ : FnType) (entries : list (string * FnType))
  : list string :=
  (filter (λ kv, kv.2 = typ) entries).*1.

Definition detail_names (typ : FnType) (entries : list (string * FnType))
  : list string :=
  sort_Strings (collect typ entries).

Definition join (parts : list string) : string :=
  foldr String.append EmptyString parts.

Definition detail_block (cat : string) (fns : list string) : string :=
  NL +:+ "'" +:+ cat +:+ "' functions by name:" +:+ NL
  +:+ join (map (λ fn, fn +:+ NL) fns).

Definition detail_text (orders : FnType -> list (string * FnType)) : string :=
  join (map (λ tc : FnType * string,
               detail_block tc.2 (detail_names tc.1 (orders tc.1)))
            (zip typs cats)).

Definition stats_text (filename : string) (lv ns short long : Z) : string :=
  "stats for '" +:+ filename +:+ "':" +:+ NL
  +:+ "+ leaf functions: " +:+ pretty lv +:+ NL
  +:+ "+ nonsplit functions: " +:+ pretty ns +:+ NL
  +:+ "+ morestack functions: " +:+ pretty short +:+ NL
  +:+ "+ morestack_non_split functions: " +:+ pretty long +:+ NL.

(** The text printed for a scanned file, or [None] when [analyze] stops
    the process before anything is printed. *)
Definition report (filename : string) (detail : bool)
           (order : list (string * FnType))
           (orders : FnType -> list (string * FnType)) : option string :=
  match analyze_entries order with
  | Fatal _ => None
  | Counts lv ns short long =>
      Some (stats_text filename lv ns short long
            +:+ (if detail then detail_text orders else EmptyString))
  end.

(** ** Streams cut into functions

    A function of a listing: its start line, the name on it and the lines
    of its body. *)
Record fblock : Type := mk_fblock {
  fb_start : string;
  fb_name : string;
  fb_body : list string
}.

Definition block_ok (fb : fblock) : Prop :=
  FindStringSubmatch fnstart (fb_start fb) = Some [fb_start fb; fb_name fb]
  /\ Forall (fun l => is_fnstart l = false) (fb_body fb).

Definition block_lines (fb : fblock) : list string :=
  fb_start fb :: fb_body fb.

Definition blocks_lines (fbs : list fblock) : list string :=
  concat (map block_lines fbs).

Definition block_entry (fb : fblock) : string * FnType :=
  (fb_name fb, body_category (fb_body fb)).

(** Every key with a percent sign was written by a collision counted so
    far. *)
Definition keys_tracked (s : astate) : Prop :=
  forall k, is_Some (funcs s !! k) ->
    has_percent k = false
    \/ exists g n, k = collision_name g n /\ 1 <= n <= collisions s.


(** * Properties *)

(** ** The line patterns *)

Section MatcherSound.
Context {R : Type}.

Lemma star_sound (p : ascii -> bool) s (k : list ascii -> option R) res :
  star p s k = Some res ->
  exists w s', s = w ++ s' /\ Forall (fun c => p c = true) w
               /\ k s' = Some res.
Proof.
  revert res. induction s as [|c s IH]; simpl; intros res H.
  - exists [], []. auto.
  - destruct (p c) eqn:Hp.
    + destruct (star p s k) as [r|] eqn:Hs.
      * destruct (IH r eq_refl) as (w & s' & -> & Hw & Hk).
        exists (c :: w), s'. split; [reflexivity|].
        split; [constructor; assumption|congruence].
      * exists [], (c :: s). auto.
    + exists [], (c :: s). auto.
Qed.

Lemma rmatch_sound r : forall s caps
    (k : list ascii -> list (list ascii) -> option R) res,
  rmatch r s caps k = Some res ->
  exists w s' g, s = w ++ s' /\ lang r w g /\ k s' (caps ++ g) = Some res.
Proof.
  induction r as [c|cl|cl|cl|r1 IH1 r2 IH2|r IH]; simpl; intros s caps k res H.
  - destruct s as [|c' s]; [discriminate|].
    destruct (Ascii.eqb_spec c c') as [<-|]; [|discriminate].
    exists [c], s, []. rewrite app_nil_r. repeat split; [constructor|assumption].
  - apply star_sound in H as (w & s' & -> & Hw & Hk).
    exists w, s', []. rewrite app_nil_r. repeat split; [constructor|]; assumption.
  - destruct s as [|c' s]; [discriminate|].
    destruct (cc_test cl c') eqn:Hc; [|discriminate].
    apply star_sound in H as (w & s' & -> & Hw & Hk).
    exists (c' :: w), s', []. rewrite app_nil_r.
    repeat split; [constructor|]; assumption.
  - destruct s as [|c' s]; [discriminate|].
    destruct (cc_test cl c') eqn:Hc; [|discriminate].
    exists [c'], s, []. rewrite app_nil_r.
    repeat split; [constructor|]; assumption.
  - apply IH1 in H as (w1 & s1 & g1 & -> & L1 & H).
    apply IH2 in H as (w2 & s2 & g2 & -> & L2 & H).
    exists (w1 ++ w2), s2, (g1 ++ g2).
    rewrite <- !app_assoc in *. repeat split; [constructor|]; assumption.
  - apply IH in H as (w & s' & g & -> & L & H).
    exists w, s', (g ++ [w]). split; [reflexivity|].
    split; [constructor; assumption|].
    rewrite length_app, Nat.add_sub, take_app_length in H.
    now rewrite <- app_assoc in H.
Qed.
End MatcherSound.

Lemma FindStringSubmatch_sound r line m :
  FindStringSubmatch r line = Some m ->
  exists g, lang r (list_ascii_of_string line) g
            /\ m = line :: map string_of_list_ascii g.
Proof.
  unfold FindStringSubmatch. intros H.
  apply rmatch_sound in H as (w & s' & g & Hs & L & H).
  destruct s' as [|]; [|discriminate].
  rewrite app_nil_r in Hs. subst w. simpl in H.
  exists g. split; [assumption|congruence].
Qed.

Lemma skip_app p w rest :
  Forall (fun c => p c = true) w -> stops p rest -> skip p (w ++ rest) = rest.
Proof.
  intros Hw Hr. induction Hw as [|c w Hc _ IH]; simpl.
  - destruct rest as [|c rest]; simpl in *; [reflexivity|now rewrite Hr].
  - now rewrite Hc.
Qed.

Lemma skip_stopped p s : stops p s -> skip p s = s.
Proof. intros H. exact (skip_app p [] s (List.Forall_nil _) H). Qed.

Lemma nonspace_false c : nonspace c = true -> is_space c = false.
Proof. unfold nonspace. now destruct (is_space c). Qed.

Lemma space_false c : is_space c = true -> nonspace c = false.
Proof. unfold nonspace. now intros ->. Qed.

(** A line [blanks field: blanks x...], with [x] not blank, has [x...] from
    its second field on. *)
Lemma from_field2_insn w0 c f w1 x rest :
  Forall (fun c => is_space c = true) w0 ->
  Forall (fun c => nonspace c = true) (c :: f) ->
  Forall (fun c => is_space c = true) w1 ->
  w1 <> [] ->
  is_space x = false ->
  from_field2 (w0 ++ (c :: f) ++ [":"%char] ++ w1 ++ x :: rest) = x :: rest.
Proof.
  intros H0 Hf H1 Hne Hx. unfold from_field2.
  rewrite skip_app; [|assumption|].
  2:{ simpl. apply nonspace_false. now inversion Hf. }
  replace ((c :: f) ++ [":"%char] ++ w1 ++ x :: rest)
    with (((c :: f) ++ [":"%char]) ++ w1 ++ x :: rest)
    by now rewrite <- app_assoc.
  rewrite skip_app.
  - apply skip_app; [assumption|exact Hx].
  - apply Forall_app. split; [assumption|]. repeat constructor.
  - destruct w1 as [|b w1]; [contradiction|]. simpl.
    apply space_false. now inversion H1.
Qed.

(** A line [field blank <...] has [<...] from its second field on. *)
Lemma from_field2_label c f b rest :
  Forall (fun c => nonspace c = true) (c :: f) ->
  is_space b = true ->
  from_field2 ((c :: f) ++ [b] ++ "<"%char :: rest) = "<"%char :: rest.
Proof.
  intros Hf Hb. unfold from_field2.
  rewrite (skip_stopped is_space ((c :: f) ++ [b] ++ "<"%char :: rest)).
  2:{ simpl. apply nonspace_false. now inversion Hf. }
  rewrite skip_app; [|assumption|simpl; now apply space_false].
  simpl. rewrite Hb. reflexivity.
Qed.

Ltac inv_lang :=
  repeat match goal with
    | H : lang (Cat _ _) _ _ |- _ => inversion H; subst; clear H
    | H : lang (Chr _) _ _ |- _ => inversion H; subst; clear H
    | H : lang (One _) _ _ |- _ => inversion H; subst; clear H
    | H : lang (Plus _) _ _ |- _ => inversion H; subst; clear H
    | H : lang (Star _) _ _ |- _ => inversion H; subst; clear H
    | H : lang (Group _) _ _ |- _ => inversion H; subst; clear H
    end.

Ltac classes :=
  repeat match goal with
    | H : cc_test Space _ = true |- _ => simpl in H
    | H : cc_test NonSpace _ = true |- _ => simpl in H; fold (nonspace) in H
    | H : Forall (fun c => cc_test Space c = true) _ |- _ => simpl in H
    | H : Forall (fun c => cc_test NonSpace c = true) _ |- _ =>
        simpl in H; fold nonspace in H
    end.

(** The second field of an instruction line the call patterns accept
    begins with [c], that of a PLT jump with [j], and that of a function
    start with [<]. *)
Lemma insn_prefix_field2 (x : ascii) (r : regex) w g :
  is_space x = false ->
  lang (Cat (Star Space) (Cat (Plus NonSpace) (Cat (Chr ":") (Cat (Plus Space)
          (Cat (Chr x) r))))) w g ->
  hd_error (from_field2 w) = Some x.
Proof.
  intros Hx L. inv_lang. classes.
  match goal with
  | |- hd_error (from_field2 (?w0 ++ (?c :: ?f) ++ _ ++ (?b :: ?w1) ++ _ ++ ?rest))
       = _ =>
      change (hd_error (from_field2
                (w0 ++ (c :: f) ++ [":"%char] ++ (b :: w1) ++ x :: rest))
              = Some x);
      rewrite (from_field2_insn w0 c f (b :: w1) x rest)
  end; try assumption; try reflexivity; try discriminate.
  - constructor; assumption.
  - constructor; assumption.
Qed.

Lemma anycall_field2 line m :
  FindStringSubmatch anycallre line = Some m ->
  hd_error (from_field2 (list_ascii_of_string line)) = Some "c"%char.
Proof.
  intros H. apply FindStringSubmatch_sound in H as (g & L & _).
  eapply insn_prefix_field2; [|exact L]. reflexivity.
Qed.

Lemma dircall_field2 line m :
  FindStringSubmatch dircallre line = Some m ->
  hd_error (from_field2 (list_ascii_of_string line)) = Some "c"%char.
Proof.
  intros H. apply FindStringSubmatch_sound in H as (g & L & _).
  eapply insn_prefix_field2; [|exact L]. reflexivity.
Qed.

Lemma pltjump_field2 line m :
  FindStringSubmatch pltjumpre line = Some m ->
  hd_error (from_field2 (list_ascii_of_string line)) = Some "j"%char.
Proof.
  intros H. apply FindStringSubmatch_sound in H as (g & L & _).
  eapply insn_prefix_field2; [|exact L]. reflexivity.
Qed.

Lemma fnstart_field2 line m :
  FindStringSubmatch fnstart line = Some m ->
  hd_error (from_field2 (list_ascii_of_string line)) = Some "<"%char
  /\ submatch1 m <> "".
Proof.
  intros H. apply FindStringSubmatch_sound in H as (g & L & ->).
  unfold fnstart, lit in L. simpl in L. inv_lang. classes. split.
  - match goal with
    | |- hd_error (from_field2 ((?c :: ?f) ++ [?b] ++ _ ++ ?rest)) = _ =>
        change (hd_error (from_field2 ((c :: f) ++ [b] ++ "<"%char :: rest))
                = Some "<"%char);
        rewrite (from_field2_label c f b rest)
    end; try assumption; try reflexivity.
    constructor; assumption.
  - simpl. discriminate.
Qed.

(** The four kinds of lines exclude one another, although the loop tests
    function starts and calls independently. *)
Lemma fnstart_no_call line :
  is_fnstart line = true ->
  is_pltjump line = false /\ dircall_target line = None
  /\ is_anycall line = false.
Proof.
  unfold is_fnstart, is_pltjump, is_anycall, dircall_target, is_match.
  destruct (FindStringSubmatch fnstart line) as [m|] eqn:E; [|discriminate].
  intros _. apply fnstart_field2 in E as [E _].
  destruct (FindStringSubmatch pltjumpre line) as [m1|] eqn:E1.
  { apply pltjump_field2 in E1. congruence. }
  destruct (FindStringSubmatch dircallre line) as [m2|] eqn:E2.
  { apply dircall_field2 in E2. congruence. }
  destruct (FindStringSubmatch anycallre line) as [m3|] eqn:E3.
  { apply anycall_field2 in E3. congruence. }
  auto.
Qed.

Lemma pltjump_no_other line :
  is_pltjump line = true ->
  is_fnstart line = false /\ dircall_target line = None
  /\ is_anycall line = false.
Proof.
  unfold is_fnstart, is_pltjump, is_anycall, dircall_target, is_match.
  destruct (FindStringSubmatch pltjumpre line) as [m|] eqn:E; [|discriminate].
  intros _. apply pltjump_field2 in E.
  destruct (FindStringSubmatch fnstart line) as [m1|] eqn:E1.
  { apply fnstart_field2 in E1 as [E1 _]. congruence. }
  destruct (FindStringSubmatch dircallre line) as [m2|] eqn:E2.
  { apply dircall_field2 in E2. congruence. }
  destruct (FindStringSubmatch anycallre line) as [m3|] eqn:E3.
  { apply anycall_field2 in E3. congruence. }
  auto.
Qed.

Lemma fnstart_name_nonempty line m :
  FindStringSubmatch fnstart line = Some m -> submatch1 m <> "".
Proof. intros H. now apply fnstart_field2 in H. Qed.

(** ** [recordFunc] *)

Lemma wrap64_id z : int64_min <= z <= int64_max -> wrap64 z = z.
Proof.
  unfold int64_min, int64_max, wrap64. intros H.
  rewrite Z.mod_small; lia.
Qed.

Lemma wrap64_add_l a b : wrap64 (wrap64 a + b) = wrap64 (a + b).
Proof.
  unfold wrap64.
  replace (((a + 2 ^ 63) mod 2 ^ 64 - 2 ^ 63 + b + 2 ^ 63))
    with ((a + 2 ^ 63) mod 2 ^ 64 + b) by lia.
  rewrite Zplus_mod_idemp_l. f_equal. f_equal. lia.
Qed.

Lemma add64_succ c : int64_min <= c < int64_max -> add64 c 1 = c + 1.
Proof. intros H. apply wrap64_id. unfold int64_min, int64_max in *. lia. Qed.

Lemma append_ne_self (a b : string) : b <> "" -> a +:+ b <> a.
Proof.
  intros Hb. induction a as [|c a IH]; simpl.
  - exact Hb.
  - intros H. injection H as H. exact (IH H).
Qed.

Lemma collision_name_fresh fname n : collision_name fname n <> fname.
Proof. unfold collision_name. apply append_ne_self. discriminate. Qed.

Lemma disposition_known s : disposition s <> Unknown.
Proof. unfold disposition. repeat case_match; discriminate. Qed.

Lemma choice_is_max (odisp disp : FnType) :
  is_max (if FnType_int odisp >? FnType_int disp then odisp else disp)
         disp odisp.
Proof.
  unfold is_max, FnType_le.
  destruct (Z.gtb_spec (FnType_int odisp) (FnType_int disp)); repeat split;
    auto; lia.
Qed.

Lemma recordFunc_flags s fname :
  seenShort (recordFunc s fname) = false
  /\ seenLong (recordFunc s fname) = false
  /\ seenCall (recordFunc s fname) = false.
Proof. unfold recordFunc. destruct (funcs s !! fname); simpl; auto. Qed.

Lemma recordFunc_fresh s fname :
  funcs s !! fname = None ->
  funcs (recordFunc s fname) = <[fname := disposition s]> (funcs s)
  /\ collisions (recordFunc s fname) = collisions s.
Proof. intros H. unfold recordFunc. rewrite H. simpl. auto. Qed.

Lemma recordFunc_collision s fname odisp :
  funcs s !! fname = Some odisp ->
  funcs (recordFunc s fname)
  = <[collision_name fname (add64 (collisions s) 1)
      := if FnType_int odisp >? FnType_int (disposition s)
         then odisp else disposition s]> (funcs s)
  /\ collisions (recordFunc s fname) = add64 (collisions s) 1.
Proof. intros H. unfold recordFunc. rewrite H. simpl. auto. Qed.

(** What [recordFunc] writes: one key, with a category that is not the
    zero value. *)
Lemma recordFunc_writes s fname :
  exists key disp,
    funcs (recordFunc s fname) = <[key := disp]> (funcs s)
    /\ disp <> Unknown.
Proof.
  unfold recordFunc. destruct (funcs s !! fname) as [odisp|] eqn:E; simpl.
  - eexists _, _. split; [reflexivity|].
    pose proof (disposition_known s) as Hd.
    destruct (Z.gtb_spec (FnType_int odisp) (FnType_int (disposition s)));
      [|exact Hd].
    intros ->. destruct (disposition s); simpl in *; lia.
  - eexists _, _. split; [reflexivity|]. apply disposition_known.
Qed.

(** C2: finalizing a name that is already a key makes the counter the Go
    sum [collisions + 1] (which is the counter plus one below the top of
    int64), stores the maximum of the computed and the previously stored
    category under name%counter, and leaves the entry of the name, and
    every other key, as it was. *)
Theorem C2_collision_rename (s : astate) (fname : string) (odisp : FnType) :
  funcs s !! fname = Some odisp ->
  let s' := recordFunc s fname in
  let key := fname +:+ "%" +:+ pretty (collisions s') in
  collisions s' = add64 (collisions s) 1
  /\ (int64_min <= collisions s < int64_max ->
      collisions s' = collisions s + 1)
  /\ (exists m, funcs s' !! key = Some m /\ is_max m (disposition s) odisp)
  /\ funcs s' !! fname = Some odisp
  /\ (forall k, k <> key -> funcs s' !! k = funcs s !! k).
Proof.
  intros Hpresent s' key.
  destruct (recordFunc_collision s fname odisp Hpresent) as [Hf Hc].
  fold s' in Hf, Hc.
  assert (Hkey : key = collision_name fname (add64 (collisions s) 1)).
  { unfold key, collision_name. now rewrite Hc. }
  split; [exact Hc|].
  split; [intros Hr; rewrite Hc; now apply add64_succ|].
  split.
  { eexists. split.
    - rewrite Hf, Hkey. apply lookup_insert_eq.
    - apply choice_is_max. }
  split.
  - rewrite Hf, lookup_insert_ne; [exact Hpresent|].
    apply collision_name_fresh.
  - intros k Hk. rewrite Hf, lookup_insert_ne; [reflexivity|].
    rewrite <- Hkey. congruence.
Qed.

Lemma C2_collision_rename_witness :
  let s := {| seenShort := true; seenLong := false; seenCall := true;
              funcs := {[ "dup" := NoSplit ]}; collisions := 0 |} in
  funcs (recordFunc s "dup") !! "dup%1" = Some SplitSmall
  /\ funcs (recordFunc s "dup") !! "dup" = Some NoSplit.
Proof.
  intros s.
  destruct (C2_collision_rename s "dup" NoSplit) as (_ & _ & _ & Hk & _).
  - reflexivity.
  - split; [vm_compute; reflexivity | exact Hk].
Defined.

(** ** The scanning loop *)

(** What the two call tests of an iteration do to the accumulator. *)
Lemma pltJump_effect s line :
  let s' := pltJump s line in
  seenShort s' = seenShort s /\ seenLong s' = seenLong s
  /\ seenCall s' = seenCall s || is_pltjump line
  /\ funcs s' = funcs s /\ collisions s' = collisions s.
Proof.
  unfold pltJump, is_pltjump, is_match.
  destruct (FindStringSubmatch pltjumpre line); simpl;
    rewrite ?orb_true_r, ?orb_false_r; auto.
Qed.

Lemma callLine_effect s line :
  let s' := callLine s line in
  seenShort s' = seenShort s || calls "__morestack" line
  /\ seenLong s' = seenLong s || calls "__morestack_non_split" line
  /\ seenCall s'
     = seenCall s
       || (bool_decide (is_Some (dircall_target line)) || is_anycall line)
  /\ funcs s' = funcs s /\ collisions s' = collisions s.
Proof.
  unfold callLine, calls, is_anycall, dircall_target, is_match.
  destruct (FindStringSubmatch dircallre line) as [md|]; simpl.
  - destruct (decide (submatch1 md = "__morestack")) as [E|E];
      [|destruct (decide (submatch1 md = "__morestack_non_split")) as [E'|E']];
      repeat case_bool_decide; simpl;
      rewrite ?orb_true_r, ?orb_false_r; try congruence; auto 10.
    all: match goal with
         | H : ¬ is_Some _ |- _ => exfalso; apply H; eauto
         end.
  - repeat case_bool_decide; try discriminate;
      try (match goal with H : is_Some None |- _ => destruct H; discriminate end).
    destruct (FindStringSubmatch anycallre line); simpl;
      rewrite ?orb_true_r, ?orb_false_r; auto.
Qed.

Lemma call_tests_effect s line :
  let s' := callLine (pltJump s line) line in
  seenShort s' = seenShort s || calls "__morestack" line
  /\ seenLong s' = seenLong s || calls "__morestack_non_split" line
  /\ seenCall s' = seenCall s || is_call line
  /\ funcs s' = funcs s
  /\ collisions s' = collisions s.
Proof.
  destruct (pltJump_effect s line) as (P1 & P2 & P3 & P4 & P5).
  destruct (callLine_effect (pltJump s line) line) as (C1 & C2 & C3 & C4 & C5).
  simpl in *. unfold is_call.
  rewrite C1, C2, C3, C4, C5, P1, P2, P3, P4, P5, !orb_assoc. auto.
Qed.

(** An iteration on a line that starts no function leaves the table, the
    counter and the open function alone. *)
Lemma startFunc_other sc line : is_fnstart line = false -> startFunc sc line = sc.
Proof.
  unfold is_fnstart, is_match, startFunc.
  now destruct (FindStringSubmatch fnstart line).
Qed.

Lemma scanLine_other sc line :
  is_fnstart line = false ->
  let sc' := scanLine sc line in
  curfunc sc' = curfunc sc
  /\ funcs (state sc') = funcs (state sc)
  /\ collisions (state sc') = collisions (state sc)
  /\ seenShort (state sc') = seenShort (state sc) || calls "__morestack" line
  /\ seenLong (state sc')
     = seenLong (state sc) || calls "__morestack_non_split" line
  /\ seenCall (state sc') = seenCall (state sc) || is_call line.
Proof.
  intros H. unfold scanLine. rewrite (startFunc_other sc line H). simpl.
  destruct (call_tests_effect (state sc) line) as (? & ? & ? & ? & ?).
  auto 10.
Qed.

(** An iteration on a function start: the open function, if any, is
    recorded, the new one is opened, and the line sets no flag. *)
Lemma scanLine_fnstart sc line :
  is_fnstart line = true ->
  let sc' := scanLine sc line in
  state sc' = (if decide (curfunc sc = "") then state sc
               else recordFunc (state sc) (curfunc sc))
  /\ curfunc sc' <> ""
  /\ FindStringSubmatch fnstart line = Some [line; curfunc sc'].
Proof.
  intros H. destruct (fnstart_no_call line H) as (Hp & Hd & Ha).
  unfold is_fnstart, is_match in H.
  destruct (FindStringSubmatch fnstart line) as [m|] eqn:E; [|discriminate].
  pose proof (fnstart_name_nonempty line m E) as Hne.
  apply FindStringSubmatch_sound in E as Hs. destruct Hs as (g & L & Hm).
  unfold scanLine, startFunc. rewrite E. simpl.
  unfold is_pltjump, is_anycall, dircall_target, is_match in *.
  unfold pltJump, callLine.
  destruct (FindStringSubmatch pltjumpre line); [discriminate|].
  destruct (FindStringSubmatch dircallre line); [discriminate|].
  destruct (FindStringSubmatch anycallre line); [discriminate|].
  split; [reflexivity|]. split; [exact Hne|].
  subst m. unfold fnstart, lit in L. simpl in L. inv_lang. reflexivity.
Qed.

Lemma scanFrom_app sc l1 l2 :
  scanFrom sc (l1 ++ l2) = scanFrom (scanFrom sc l1) l2.
Proof. unfold scanFrom. apply fold_left_app. Qed.

(** Scanning the lines of a body, which start no function, accumulates
    the flags and touches nothing else. *)
Lemma scanFrom_body body : forall sc,
  Forall (fun l => is_fnstart l = false) body ->
  let sc' := scanFrom sc body in
  curfunc sc' = curfunc sc
  /\ funcs (state sc') = funcs (state sc)
  /\ collisions (state sc') = collisions (state sc)
  /\ seenShort (state sc')
     = seenShort (state sc) || existsb (calls "__morestack") body
  /\ seenLong (state sc')
     = seenLong (state sc) || existsb (calls "__morestack_non_split") body
  /\ seenCall (state sc') = seenCall (state sc) || existsb is_call body.
Proof.
  induction body as [|l body IH]; intros sc Hb; simpl.
  - rewrite !orb_false_r. auto 10.
  - inversion Hb as [|? ? Hl Hb']; subst.
    destruct (scanLine_other sc l Hl) as (E1 & E2 & E3 & E4 & E5 & E6).
    destruct (IH (scanLine sc l) Hb') as (F1 & F2 & F3 & F4 & F5 & F6).
    simpl in *. unfold scanFrom in *.
    rewrite F1, F2, F3, F4, F5, F6, E1, E2, E3, E4, E5, E6, !orb_assoc.
    auto 10.
Qed.

(** A body scanned from cleared flags gets the category of the
    description. *)
Lemma body_disposition sc body :
  flags_clear (state sc) ->
  Forall (fun l => is_fnstart l = false) body ->
  disposition (state (scanFrom sc body)) = body_category body.
Proof.
  intros (Hs & Hl & Hc) Hb.
  destruct (scanFrom_body body sc Hb) as (_ & _ & _ & F4 & F5 & F6).
  unfold disposition, body_category.
  rewrite F4, F5, F6, Hs, Hl, Hc. reflexivity.
Qed.

(** A function start with a function open clears the flags: the sibling
    of the first function start, which does not. *)
Lemma fnstart_resets_open sc line :
  is_fnstart line = true -> curfunc sc <> "" ->
  flags_clear (state (scanLine sc line)).
Proof.
  intros H Hopen. destruct (scanLine_fnstart sc line H) as (E & _ & _).
  rewrite E. destruct (decide (curfunc sc = "")); [contradiction|].
  apply recordFunc_flags.
Qed.

Lemma fnstart_first_keeps sc line :
  is_fnstart line = true -> curfunc sc = "" ->
  state (scanLine sc line) = state sc.
Proof.
  intros H Hnone. destruct (scanLine_fnstart sc line H) as (E & _ & _).
  rewrite E. now destruct (decide (curfunc sc = "")).
Qed.

(** Once a function is open, one stays open. *)
Lemma scanLine_stays_open sc line :
  curfunc sc <> "" -> curfunc (scanLine sc line) <> "".
Proof.
  intros Hopen. destruct (is_fnstart line) eqn:E.
  - now destruct (scanLine_fnstart sc line E) as (_ & ? & _).
  - destruct (scanLine_other sc line E) as (-> & _). exact Hopen.
Qed.

Lemma scanFrom_stays_open lines : forall sc,
  curfunc sc <> "" -> curfunc (scanFrom sc lines) <> "".
Proof.
  induction lines as [|l lines IH]; intros sc H; simpl; [exact H|].
  apply IH. now apply scanLine_stays_open.
Qed.

Lemma scanFrom_opens lines : forall sc,
  existsb is_fnstart lines = true -> curfunc (scanFrom sc lines) <> "".
Proof.
  induction lines as [|l lines IH]; intros sc H; simpl in *; [discriminate|].
  destruct (is_fnstart l) eqn:E.
  - apply scanFrom_stays_open.
    now destruct (scanLine_fnstart sc l E) as (_ & ? & _).
  - apply IH. exact H.
Qed.

Lemma calls_is_call sym line : calls sym line = true -> is_call line = true.
Proof.
  unfold calls, is_call. intros H. apply bool_decide_eq_true_1 in H.
  rewrite H. rewrite (bool_decide_eq_true_2 (is_Some _)) by eauto.
  now rewrite orb_true_r.
Qed.

Lemma existsb_calls_is_call sym lines :
  existsb is_call lines = false -> existsb (calls sym) lines = false.
Proof.
  induction lines as [|l lines IH]; simpl; [reflexivity|].
  intros H. apply orb_false_elim in H as [H1 H2].
  rewrite (IH H2), orb_false_r.
  destruct (calls sym l) eqn:E; [|reflexivity].
  apply calls_is_call in E. congruence.
Qed.

(** Every function that is opened with nothing leaking into it gets, when
    it is recorded, the category of its body: this covers every function
    of every stream but a first function with calls before its start. *)
Lemma opened_function_category pre start body :
  leaks pre = false ->
  is_fnstart start = true ->
  Forall (fun l => is_fnstart l = false) body ->
  let sc := scanLines (pre ++ start :: body) in
  FindStringSubmatch fnstart start = Some [start; curfunc sc]
  /\ disposition (state sc) = body_category body
  /\ finish sc = recordFunc (state sc) (curfunc sc).
Proof.
  intros Hleak Hstart Hbody sc.
  unfold sc, scanLines. rewrite scanFrom_app.
  set (sc0 := scanFrom init_scan pre).
  change (scanFrom sc0 (start :: body))
    with (scanFrom (scanLine sc0 start) body).
  destruct (scanLine_fnstart sc0 start Hstart) as (E & Hne & Hm).
  destruct (scanFrom_body body (scanLine sc0 start) Hbody) as (Hcur & _).
  cbv zeta in Hcur.
  assert (Hclear : flags_clear (state (scanLine sc0 start))).
  { destruct (existsb is_fnstart pre) eqn:Hp.
    - apply fnstart_resets_open; [exact Hstart|].
      now apply scanFrom_opens.
    - unfold leaks in Hleak. rewrite Hp in Hleak. simpl in Hleak.
      assert (Hpre : Forall (fun l => is_fnstart l = false) pre).
      { apply Forall_forall. intros l Hl.
        destruct (is_fnstart l) eqn:El; [|reflexivity].
        assert (existsb is_fnstart pre = true); [|congruence].
        apply existsb_exists. exists l. split; [|exact El].
        now apply list_elem_of_In. }
      destruct (scanFrom_body pre init_scan Hpre)
        as (F1 & _ & _ & F4 & F5 & F6).
      fold sc0 in F1, F4, F5, F6. simpl in F1, F4, F5, F6.
      rewrite fnstart_first_keeps by assumption.
      rewrite Hleak in F6.
      rewrite (existsb_calls_is_call "__morestack" _ Hleak) in F4.
      rewrite (existsb_calls_is_call "__morestack_non_split" _ Hleak) in F5.
      repeat split; assumption. }
  split; [now rewrite Hcur|].
  split; [now apply body_disposition|].
  unfold finish. rewrite Hcur.
  destruct (decide (curfunc (scanLine sc0 start) = "")); [contradiction|].
  reflexivity.
Qed.

(** A PLT-jump line sets the any-call flag and nothing else. *)
Lemma pltjump_sets_only_seenCall sc line :
  is_pltjump line = true ->
  let sc' := scanLine sc line in
  seenCall (state sc') = true
  /\ seenShort (state sc') = seenShort (state sc)
  /\ seenLong (state sc') = seenLong (state sc)
  /\ funcs (state sc') = funcs (state sc)
  /\ collisions (state sc') = collisions (state sc)
  /\ curfunc sc' = curfunc sc.
Proof.
  intros H. destruct (pltjump_no_other line H) as (Hf & Hd & Ha).
  destruct (scanLine_other sc line Hf) as (E1 & E2 & E3 & E4 & E5 & E6).
  simpl. unfold calls, is_call in *. rewrite Hd, H in *.
  rewrite !bool_decide_eq_false_2 in * by discriminate.
  rewrite !orb_false_r in *. rewrite orb_true_r in *. simpl in E6. auto 10.
Qed.

(** The category of a body does not depend on the order of its lines. *)
Lemma existsb_Permutation {A} (f : A -> bool) (l1 l2 : list A) :
  l1 ≡ₚ l2 -> existsb f l1 = existsb f l2.
Proof.
  induction 1; simpl; try congruence.
  destruct (f x), (f y); reflexivity.
Qed.

Lemma scanned_body_Permutation sc body1 body2 :
  body1 ≡ₚ body2 ->
  Forall (fun l => is_fnstart l = false) body1 ->
  disposition (state (scanFrom sc body1))
  = disposition (state (scanFrom sc body2)).
Proof.
  intros Hp H1. assert (H2 : Forall (fun l => is_fnstart l = false) body2).
  { now rewrite <- Hp. }
  destruct (scanFrom_body body1 sc H1) as (_ & _ & _ & F4 & F5 & F6).
  destruct (scanFrom_body body2 sc H2) as (_ & _ & _ & G4 & G5 & G6).
  unfold disposition. rewrite F4, F5, F6, G4, G5, G6.
  now rewrite !(existsb_Permutation _ _ _ Hp).
Qed.

(** The table never holds the zero value. *)
Lemma recordFunc_table_ok s fname :
  table_ok (funcs s) -> table_ok (funcs (recordFunc s fname)).
Proof.
  intros H. destruct (recordFunc_writes s fname) as (key & disp & -> & Hd).
  now apply map_Forall_insert_2.
Qed.

Lemma scanLine_table_ok sc line :
  table_ok (funcs (state sc)) -> table_ok (funcs (state (scanLine sc line))).
Proof.
  intros H. destruct (is_fnstart line) eqn:E.
  - destruct (scanLine_fnstart sc line E) as (-> & _).
    destruct (decide (curfunc sc = "")); [exact H|].
    now apply recordFunc_table_ok.
  - now destruct (scanLine_other sc line E) as (_ & -> & _).
Qed.

Lemma scanFrom_table_ok lines : forall sc,
  table_ok (funcs (state sc)) -> table_ok (funcs (state (scanFrom sc lines))).
Proof.
  induction lines as [|l lines IH]; intros sc H; simpl; [exact H|].
  apply IH. now apply scanLine_table_ok.
Qed.

Lemma examineLines_table_ok lines : table_ok (funcs (examineLines lines)).
Proof.
  unfold examineLines, finish, scanLines.
  assert (H : table_ok (funcs (state (scanFrom init_scan lines)))).
  { apply scanFrom_table_ok. apply map_Forall_empty. }
  destruct (decide _); [exact H|]. now apply recordFunc_table_ok.
Qed.

(** The counter counts the collisions. *)
Lemma scanLine_collision sc line :
  collides sc line = true ->
  exists odisp,
    funcs (state sc) !! curfunc sc = Some odisp
    /\ state (scanLine sc line) = recordFunc (state sc) (curfunc sc).
Proof.
  unfold collides. intros H.
  apply andb_true_iff in H as [H H3]. apply andb_true_iff in H as [H1 H2].
  apply bool_decide_eq_true_1 in H2, H3. destruct H3 as [odisp Ho].
  exists odisp. split; [exact Ho|].
  destruct (scanLine_fnstart sc line H1) as (-> & _).
  now destruct (decide (curfunc sc = "")).
Qed.

Lemma scanLine_no_collision sc line :
  collides sc line = false ->
  collisions (state (scanLine sc line)) = collisions (state sc).
Proof.
  unfold collides. intros H. destruct (is_fnstart line) eqn:E.
  - destruct (scanLine_fnstart sc line E) as (-> & _).
    destruct (decide (curfunc sc = "")) as [|Hne]; [reflexivity|].
    simpl in H. rewrite (bool_decide_eq_true_2 _ Hne) in H. simpl in H.
    apply bool_decide_eq_false_1 in H.
    destruct (funcs (state sc) !! curfunc sc) eqn:El.
    + exfalso. apply H. eauto.
    + now destruct (recordFunc_fresh _ _ El).
  - now destruct (scanLine_other sc line E) as (_ & _ & -> & _).
Qed.

Lemma scanFrom_collisions lines : forall sc c0,
  collisions (state sc) = wrap64 c0 ->
  collisions (state (scanFrom sc lines))
  = wrap64 (c0 + Z.of_nat (collisions_from sc lines)).
Proof.
  induction lines as [|l lines IH]; intros sc c0 H; simpl.
  - now rewrite Z.add_0_r.
  - destruct (collides sc l) eqn:E.
    + destruct (scanLine_collision sc l E) as (odisp & Ho & Hs).
      destruct (recordFunc_collision _ _ _ Ho) as (_ & Hc).
      rewrite (IH (scanLine sc l) (c0 + 1)).
      * f_equal. lia.
      * rewrite Hs, Hc, H. unfold add64. apply wrap64_add_l.
    + rewrite (IH (scanLine sc l) c0).
      * f_equal.
      * now rewrite scanLine_no_collision.
Qed.

Lemma collisions_from_le lines : forall sc,
  (collisions_from sc lines <= length lines)%nat.
Proof.
  induction lines as [|l lines IH]; intros sc; simpl; [lia|].
  specialize (IH (scanLine sc l)). destruct (collides sc l); lia.
Qed.

(** ** Aggregation *)

Lemma count_of_cons t fn disp entries :
  count_of t ((fn, disp) :: entries)
  = (if decide (disp = t) then 1 else 0) + count_of t entries.
Proof.
  unfold count_of. rewrite filter_cons. simpl.
  destruct (decide (disp = t)); simpl; lia.
Qed.

Lemma count_of_nonneg t entries : 0 <= count_of t entries.
Proof. unfold count_of. lia. Qed.

Lemma count_of_Permutation t (l1 l2 : list (string * FnType)) :
  l1 ≡ₚ l2 -> count_of t l1 = count_of t l2.
Proof. intros H. unfold count_of. now rewrite H. Qed.

(** Without a zero-valued entry, the four real categories split the
    entries. *)
Lemma count_of_total entries :
  Forall (λ kv : string * FnType, kv.2 <> Unknown) entries ->
  count_of Leaf entries + count_of NoSplit entries
  + count_of SplitSmall entries + count_of SplitLarge entries
  = Z.of_nat (length entries).
Proof.
  induction 1 as [|[fn disp] entries Hd _ IH].
  - reflexivity.
  - rewrite !count_of_cons. simpl in Hd. simpl length.
    destruct disp; [now contradict Hd|..]; repeat case_decide; try congruence; lia.
Qed.

(** The loop of [analyze], from any counters: it ends in [Counts] and has
    added to each counter, in int64, the entries of its category. *)
Lemma analyze_loop_counts entries : forall lv ns short long,
  Forall (λ kv : string * FnType, kv.2 <> Unknown) entries ->
  analyze_loop entries (wrap64 lv) (wrap64 ns) (wrap64 short) (wrap64 long)
  = Counts (wrap64 (lv + count_of Leaf entries))
           (wrap64 (ns + count_of NoSplit entries))
           (wrap64 (short + count_of SplitSmall entries))
           (wrap64 (long + count_of SplitLarge entries)).
Proof.
  induction entries as [|[fn disp] entries IH]; intros lv ns short long H.
  - unfold count_of. simpl. now rewrite !Z.add_0_r.
  - inversion H as [|? ? Hd H']; subst. simpl in Hd.
    rewrite !count_of_cons. simpl.
    destruct disp; [now contradict Hd|..]; unfold add64;
      rewrite wrap64_add_l, IH by assumption;
      repeat case_decide; try congruence;
      f_equal; apply (f_equal wrap64); lia.
Qed.

Lemma table_ok_entries (m : gmap string FnType) entries :
  entries ≡ₚ map_to_list m -> table_ok m ->
  Forall (λ kv : string * FnType, kv.2 <> Unknown) entries.
Proof.
  intros Hp Hok. rewrite Hp. apply Forall_forall. intros [k v] Hin.
  apply elem_of_map_to_list in Hin. exact (Hok k v Hin).
Qed.

(** The counts [analyze] returns, for any iteration order of a table
    without zero-valued entries that has fewer than 2^63 keys. *)
Lemma analyze_entries_tallies (s : astate) entries :
  iteration_of s entries ->
  table_ok (funcs s) ->
  Z.of_nat (size (funcs s)) <= int64_max ->
  analyze_entries entries
  = Counts (tally Leaf (funcs s)) (tally NoSplit (funcs s))
           (tally SplitSmall (funcs s)) (tally SplitLarge (funcs s))
  /\ tally Leaf (funcs s) + tally NoSplit (funcs s)
     + tally SplitSmall (funcs s) + tally SplitLarge (funcs s)
     = Z.of_nat (size (funcs s)).
Proof.
  intros Hp Hok Hsz. unfold iteration_of in Hp.
  pose proof (table_ok_entries _ _ Hp Hok) as Hall.
  pose proof (count_of_total entries Hall) as Htot.
  assert (Hlen : length entries = size (funcs s)).
  { rewrite Hp. apply length_map_to_list. }
  rewrite Hlen in Htot.
  unfold tally. rewrite <- !(count_of_Permutation _ _ _ Hp).
  split; [|exact Htot].
  unfold analyze_entries.
  change 0 with (wrap64 0) at 1 2 3 4.
  rewrite analyze_loop_counts by assumption. simpl.
  pose proof (count_of_nonneg Leaf entries).
  pose proof (count_of_nonneg NoSplit entries).
  pose proof (count_of_nonneg SplitSmall entries).
  pose proof (count_of_nonneg SplitLarge entries).
  rewrite !wrap64_id; [reflexivity| | | |];
    unfold int64_min, int64_max in *; lia.
Qed.

(** The pass never stops on a table without zero-valued entries, whatever
    its size and the iteration order. *)
Lemma analyze_entries_not_fatal (s : astate) entries :
  iteration_of s entries ->
  table_ok (funcs s) ->
  exists lv ns short long, analyze_entries entries = Counts lv ns short long.
Proof.
  intros Hp Hok. unfold iteration_of in Hp.
  pose proof (table_ok_entries _ _ Hp Hok) as Hall.
  unfold analyze_entries. change 0 with (wrap64 0) at 1 2 3 4.
  rewrite analyze_loop_counts by assumption. eauto.
Qed.

(** ** The table and the aggregation of a stream *)

(** C4: what [recordFunc] writes is never the zero value, so no table the
    loop builds holds it, and [analyze] returns counts for it, in every
    iteration order, rather than stopping at a corrupted entry. *)
Theorem C4_no_unknown_entry (lines : list string) :
  (forall s fname, exists key disp,
      funcs (recordFunc s fname) = <[key := disp]> (funcs s)
      /\ disp <> Unknown)
  /\ (forall k v, funcs (examineLines lines) !! k = Some v ->
                 v = Leaf \/ v = NoSplit \/ v = SplitSmall \/ v = SplitLarge)
  /\ (forall entries, iteration_of (examineLines lines) entries ->
        exists lv ns short long,
          analyze_entries entries = Counts lv ns short long).
Proof.
  split; [exact recordFunc_writes|]. split.
  - intros k v H. pose proof (examineLines_table_ok lines k v H) as Hv.
    simpl in Hv. destruct v; auto. now contradict Hv.
  - intros entries H. eapply analyze_entries_not_fatal; [exact H|].
    apply examineLines_table_ok.
Qed.

(** C7: on a table whose entries are all in the four real categories,
    [analyze] returns, in every iteration order, the number of entries of
    each category; every entry is in exactly one of the four, and the four
    counts add up to the number of keys. *)
Theorem C7_counts_partition (s : astate) (entries : list (string * FnType)) :
  iteration_of s entries ->
  table_ok (funcs s) ->
  Z.of_nat (size (funcs s)) <= int64_max ->
  exists lv ns short long,
    analyze_entries entries = Counts lv ns short long
    /\ lv = tally Leaf (funcs s) /\ ns = tally NoSplit (funcs s)
    /\ short = tally SplitSmall (funcs s)
    /\ long = tally SplitLarge (funcs s)
    /\ (forall k v, funcs s !! k = Some v ->
          count_of Leaf [(k, v)] + count_of NoSplit [(k, v)]
          + count_of SplitSmall [(k, v)] + count_of SplitLarge [(k, v)] = 1)
    /\ lv + ns + short + long = Z.of_nat (size (funcs s)).
Proof.
  intros Hp Hok Hsz.
  destruct (analyze_entries_tallies s entries Hp Hok Hsz) as [Ha Ht].
  eexists _, _, _, _. split; [exact Ha|].
  repeat (split; [reflexivity|]). split; [|exact Ht].
  intros k v Hkv. apply (count_of_total [(k, v)]).
  constructor; [|constructor]. exact (Hok k v Hkv).
Qed.

Lemma C7_counts_partition_witness :
  exists lv ns short long,
    analyze_entries (map_to_list (funcs (examineLines stream_a_a_b_b)))
    = Counts lv ns short long
    /\ lv + ns + short + long = 4.
Proof.
  destruct (C7_counts_partition (examineLines stream_a_a_b_b)
              (map_to_list (funcs (examineLines stream_a_a_b_b))))
    as (lv & ns & short & long & Ha & _ & _ & _ & _ & _ & Ht).
  - unfold iteration_of. reflexivity.
  - apply (bool_decide_unpack (table_ok _)). vm_compute. reflexivity.
  - vm_compute. discriminate.
  - exists lv, ns, short, long. split; [exact Ha|].
    rewrite Ht. vm_compute. reflexivity.
Defined.

(** C6: on the three lines of scenario A the table maps foo to SplitSmall
    and bar to Leaf and holds nothing else, and [analyze] returns leaf 1,
    nonsplit 0, morestack 1, morestack_non_split 0 in every iteration
    order. *)
Theorem C6_scenario_A :
  funcs (examineLines scenarioA) = {[ "foo" := SplitSmall; "bar" := Leaf ]}
  /\ (forall entries, iteration_of (examineLines scenarioA) entries ->
        analyze_entries entries = Counts 1 0 1 0).
Proof.
  split; [vm_compute; reflexivity|].
  intros entries H.
  destruct (analyze_entries_tallies (examineLines scenarioA) entries H)
    as [Ha _].
  - apply examineLines_table_ok.
  - vm_compute. discriminate.
  - rewrite Ha. vm_compute. reflexivity.
Qed.

(** ** The collision counter *)

Lemma recordFunc_nth_collision s fname n :
  is_Some (funcs s !! fname) ->
  collisions s = n - 1 ->
  int64_min < n <= int64_max ->
  collisions (recordFunc s fname) = n
  /\ exists disp,
      funcs (recordFunc s fname)
      = <[fname +:+ "%" +:+ pretty n := disp]> (funcs s).
Proof.
  intros [odisp Ho] Hc Hn.
  destruct (recordFunc_collision s fname odisp Ho) as [Hf Hc'].
  assert (E : add64 (collisions s) 1 = n).
  { rewrite add64_succ; lia. }
  rewrite E in Hf, Hc'. split; [exact Hc'|].
  eexists. exact Hf.
Qed.

(** C9: one counter serves all names.  With [n - 1] collisions met so far
    in the stream, whatever names collided, the counter is [n - 1]; the next
    collision, in the loop or at the end of the input, makes it [n] and
    writes the key name%n. *)
Theorem C9_global_counter (lines : list string) :
  let sc := scanLines lines in
  let n := Z.of_nat (collisions_from init_scan lines) + 1 in
  n <= int64_max ->
  collisions (state sc) = n - 1
  /\ (forall line, collides sc line = true ->
        collisions (state (scanLine sc line)) = n
        /\ exists disp,
            funcs (state (scanLine sc line))
            = <[curfunc sc +:+ "%" +:+ pretty n := disp]> (funcs (state sc)))
  /\ (curfunc sc <> "" -> is_Some (funcs (state sc) !! curfunc sc) ->
        collisions (finish sc) = n
        /\ exists disp,
            funcs (finish sc)
            = <[curfunc sc +:+ "%" +:+ pretty n := disp]> (funcs (state sc))).
Proof.
  intros sc n Hn.
  assert (Hc : collisions (state sc) = n - 1).
  { unfold sc, scanLines.
    rewrite (scanFrom_collisions lines init_scan 0) by reflexivity.
    rewrite wrap64_id; unfold n, int64_min, int64_max in *; lia. }
  assert (Hr : int64_min < n <= int64_max).
  { unfold n, int64_min in *. lia. }
  split; [exact Hc|]. split.
  - intros line Hcol.
    destruct (scanLine_collision sc line Hcol) as (odisp & Ho & ->).
    apply recordFunc_nth_collision; eauto.
  - intros Hopen Hin. unfold finish.
    destruct (decide (curfunc sc = "")); [contradiction|].
    apply recordFunc_nth_collision; auto.
Qed.

Lemma C9_global_counter_witness :
  funcs (examineLines stream_a_a_b_b) !! "a%1" = Some Leaf
  /\ funcs (examineLines stream_a_a_b_b) !! "b%1" = None
  /\ exists disp,
      funcs (examineLines stream_a_a_b_b)
      = <["b%2" := disp]> (funcs (state (scanLines stream_a_a_b_b))).
Proof.
  split; [vm_compute; reflexivity|]. split; [vm_compute; reflexivity|].
  destruct (C9_global_counter stream_a_a_b_b) as (_ & _ & H).
  - vm_compute. discriminate.
  - destruct H as (_ & disp & H).
    + vm_compute. discriminate.
    + vm_compute. eauto.
    + exists disp. exact H.
Defined.

(** C10: the synthetic key is written without a look at the table.  When
    it is a key already, the table does not grow; and in the stream of a
    function named f%1 followed by two named f, the second f takes the key
    f%1 from the first function: three functions are finalized, two keys
    remain, and the counts add up to two. *)
Theorem C10_synthetic_key_overwrites :
  (forall s fname odisp v,
      funcs s !! fname = Some odisp ->
      funcs s !! (fname +:+ "%" +:+ pretty (add64 (collisions s) 1)) = Some v ->
      size (funcs (recordFunc s fname)) = size (funcs s))
  /\ exists lines,
      function_names lines = ["f%1"; "f"; "f"]
      /\ functions_seen lines = 3%nat
      /\ funcs (state (scanLines lines))
         = {[ "f%1" := SplitSmall; "f" := Leaf ]}
      /\ finish (scanLines lines) = recordFunc (state (scanLines lines)) "f"
      /\ funcs (examineLines lines) = {[ "f%1" := Leaf; "f" := Leaf ]}
      /\ size (funcs (examineLines lines)) = 2%nat
      /\ (forall entries, iteration_of (examineLines lines) entries ->
            analyze_entries entries = Counts 2 0 0 0
            /\ total (analyze_entries entries) = Some 2)
      /\ 2 < Z.of_nat (functions_seen lines).
Proof.
  split.
  - intros s fname odisp v Ho Hk.
    destruct (recordFunc_collision s fname odisp Ho) as [-> _].
    unfold collision_name. now rewrite map_size_insert_Some.
  - exists stream_shadow.
    do 6 (split; [vm_compute; reflexivity|]).
    split; [|vm_compute; reflexivity].
    intros entries H.
    destruct (analyze_entries_tallies (examineLines stream_shadow) entries H)
      as [Ha _].
    + apply examineLines_table_ok.
    + vm_compute. discriminate.
    + rewrite Ha. split; vm_compute; reflexivity.
Qed.

(** ** Categories of bodies *)

Lemma long_body_category body :
  existsb (calls "__morestack_non_split") body = true ->
  body_category body = SplitLarge.
Proof. unfold body_category. now intros ->. Qed.

Lemma short_body_category body :
  existsb (calls "__morestack") body = true ->
  existsb (calls "__morestack_non_split") body = false ->
  body_category body = SplitSmall.
Proof. unfold body_category. now intros -> ->. Qed.

Lemma body_category_Permutation body1 body2 :
  body1 ≡ₚ body2 -> body_category body1 = body_category body2.
Proof.
  intros Hp. unfold body_category.
  now rewrite !(existsb_Permutation _ _ _ Hp).
Qed.

Lemma no_dircall_no_calls sym body :
  Forall (fun l => dircall_target l = None) body ->
  existsb (calls sym) body = false.
Proof.
  induction 1 as [|l body Hl _ IH]; simpl; [reflexivity|].
  unfold calls at 1. rewrite Hl, IH.
  now rewrite bool_decide_eq_false_2 by discriminate.
Qed.

(** A body whose call-relevant lines are PLT jumps, with one at least, is
    in NoSplit. *)
Lemma plt_body_category body :
  existsb is_pltjump body = true ->
  Forall (fun l => dircall_target l = None) body ->
  body_category body = NoSplit.
Proof.
  intros Hp Hd. unfold body_category.
  rewrite !(no_dircall_no_calls _ _ Hd).
  assert (Ha : existsb is_call body = true).
  { apply existsb_exists. apply existsb_exists in Hp as (l & Hin & Hl).
    exists l. split; [exact Hin|]. unfold is_call. now rewrite Hl. }
  now rewrite Ha.
Qed.

(** ** The first function of a stream

    [recordFunc] clears the flags, and the loop calls it at a function
    start only when a function is open.  At the first function start of a
    stream none is, so the flags set by the lines before it stay set and
    count for the first function. *)

(** C3: at the first function start of the stream [stream_early_call] the
    flags that the call line before it had set are still set once [foo] is
    open, and [foo], whose body is empty, is recorded as SplitSmall. *)
Theorem C3_first_start_keeps_flags :
  let sc := scanLines stream_early_call in
  function_names stream_early_call = ["foo"]
  /\ curfunc sc = "foo"
  /\ seenShort (state sc) = true /\ seenCall (state sc) = true
  /\ funcs (examineLines stream_early_call) = {[ "foo" := SplitSmall ]}
  /\ body_category [] = Leaf.
Proof.
  cbv zeta. do 5 (split; [vm_compute; reflexivity|]). reflexivity.
Qed.

(** C1: in [stream_header] the only function, [foo], has a body without
    any call-relevant line, and it is recorded as NoSplit: the header line
    of the listing is taken for a call and counts for [foo]. *)
Theorem C1_header_call_reaches_first_function :
  function_names stream_header = ["foo"]
  /\ drop 7 stream_header = [insn "    1000:" "retq"]
  /\ existsb is_call (drop 7 stream_header) = false
  /\ body_category (drop 7 stream_header) = Leaf
  /\ funcs (examineLines stream_header) = {[ "foo" := NoSplit ]}.
Proof. do 4 (split; [vm_compute; reflexivity|]). vm_compute. reflexivity. Qed.

(** C5: in [stream_early_call_plt] the body of [foo] is one PLT jump and
    nothing else, and [foo] is recorded as SplitSmall. *)
Theorem C5_plt_body_inherits_short :
  function_names stream_early_call_plt = ["foo"]
  /\ map is_pltjump (drop 2 stream_early_call_plt) = [true]
  /\ map dircall_target (drop 2 stream_early_call_plt) = [None]
  /\ map is_anycall (drop 2 stream_early_call_plt) = [false]
  /\ body_category (drop 2 stream_early_call_plt) = NoSplit
  /\ funcs (examineLines stream_early_call_plt) = {[ "foo" := SplitSmall ]}.
Proof. do 5 (split; [vm_compute; reflexivity|]). vm_compute. reflexivity. Qed.

(** C8: in [stream_early_long] the body of [foo] calls the short helper and
    makes a generic call, in either order, without a call to the long
    helper, and [foo] is recorded as SplitLarge in both orders. *)
Theorem C8_short_body_inherits_long :
  body_short_generic ≡ₚ body_generic_short
  /\ existsb (calls "__morestack_non_split") body_short_generic = false
  /\ body_category body_short_generic = SplitSmall
  /\ body_category body_generic_short = SplitSmall
  /\ funcs (examineLines (stream_early_long body_short_generic))
     = {[ "foo" := SplitLarge ]}
  /\ funcs (examineLines (stream_early_long body_generic_short))
     = {[ "foo" := SplitLarge ]}.
Proof.
  split; [apply perm_swap|].
  do 4 (split; [vm_compute; reflexivity|]). vm_compute. reflexivity.
Qed.

(** * Further properties *)

Set Warnings "-clear-no-such-hyp".

(** A [Forall] over an explicit list, one element at a time. *)
Ltac forall_compute :=
  repeat (apply List.Forall_cons; [vm_compute; reflexivity|]);
  apply List.Forall_nil.

(** ** The matcher finds every match *)

Section MatcherComplete.
Context {R : Type}.

Lemma star_complete (p : ascii -> bool) w : forall s' (k : list ascii -> option R),
  Forall (fun c => p c = true) w ->
  is_Some (k s') -> is_Some (star p (w ++ s') k).
Proof.
  induction w as [|c w IH]; intros s' k Hw Hk; simpl.
  - destruct s' as [|c s']; simpl; [exact Hk|].
    destruct (p c); [|exact Hk].
    destruct (star p s' k); [eauto|exact Hk].
  - inversion Hw as [|? ? Hc Hw']; subst. rewrite Hc.
    destruct (IH s' k Hw' Hk) as [r ->]. eauto.
Qed.

Lemma rmatch_complete r w g :
  lang r w g ->
  forall s' caps (k : list ascii -> list (list ascii) -> option R),
    is_Some (k s' (caps ++ g)) -> is_Some (rmatch r (w ++ s') caps k).
Proof.
  induction 1 as [c|cl c Hc|cl w Hw|cl c w Hc Hw
                 |r1 r2 w1 w2 g1 g2 _ IH1 _ IH2|r w g _ IH];
    intros s' caps k Hk; simpl.
  - rewrite Ascii.eqb_refl. now rewrite app_nil_r in Hk.
  - rewrite Hc. now rewrite app_nil_r in Hk.
  - rewrite app_nil_r in Hk. now apply star_complete.
  - rewrite Hc. rewrite app_nil_r in Hk. now apply star_complete.
  - rewrite <- app_assoc. apply IH1. apply IH2. now rewrite <- app_assoc.
  - apply IH. rewrite length_app, Nat.add_sub, take_app_length.
    now rewrite <- app_assoc.
Qed.
End MatcherComplete.

Lemma FindStringSubmatch_complete r line g :
  lang r (chars line) g -> is_Some (FindStringSubmatch r line).
Proof.
  intros L. unfold FindStringSubmatch.
  rewrite <- (app_nil_r (list_ascii_of_string line)).
  eapply rmatch_complete; [exact L|]. simpl. eauto.
Qed.

Lemma text_chars line : text (chars line) = line.
Proof. apply string_of_list_ascii_of_string. Qed.

Lemma chars_text w : chars (text w) = w.
Proof. apply list_ascii_of_string_of_list_ascii. Qed.

(** ** Fields *)

Lemma run_app p w rest :
  Forall (fun c => p c = true) w -> stops p rest -> run p (w ++ rest) = w.
Proof.
  intros Hw Hr. induction Hw as [|c w Hc _ IH]; simpl.
  - destruct rest as [|c rest]; simpl in *; [reflexivity|now rewrite Hr].
  - now rewrite Hc, IH.
Qed.

Lemma blank_stops_nonspace w : blank w -> stops nonspace w.
Proof.
  intros H. destruct H as [|c w Hc _]; simpl; [exact I|].
  now apply space_false.
Qed.

Lemma next_field_step f w x rest :
  solid f -> blanks w -> is_space x = false ->
  next_field (f ++ w ++ x :: rest) = x :: rest.
Proof.
  intros Hf [Hne Hw] Hx. unfold next_field.
  rewrite skip_app; [|exact Hf|].
  - apply skip_app; [exact Hw|exact Hx].
  - destruct w as [|b w]; [contradiction|]. simpl.
    apply space_false. now inversion Hw.
Qed.

Lemma bracketed_spec close c body tail_ trail :
  solid (body ++ tail_) -> blank trail -> length tail_ = close ->
  bracketed close (c :: (body ++ tail_) ++ trail) = body.
Proof.
  intros Hs Ht Hl. unfold bracketed. simpl tail.
  rewrite run_app; [|exact Hs|now apply blank_stops_nonspace].
  rewrite length_app, Hl, Nat.add_sub. apply take_app_length.
Qed.

(** ** What the four patterns accept *)

Lemma token_cons c f :
  nonspace c = true -> Forall (fun c => nonspace c = true) f -> token (c :: f).
Proof. intros H1 H2. split; [discriminate|]. now constructor. Qed.

Lemma blanks_cons b w :
  is_space b = true -> Forall (fun c => is_space c = true) w -> blanks (b :: w).
Proof. intros H1 H2. split; [discriminate|]. now constructor. Qed.

Lemma lang_Plus_token cl w :
  w <> [] -> Forall (fun c => cc_test cl c = true) w -> lang (Plus cl) w [].
Proof.
  intros Hne Hw. destruct w as [|c w]; [contradiction|].
  inversion Hw; subst. now constructor.
Qed.

Lemma lang_Word_intro wd r w g :
  lang r w g -> lang (Word wd r) (wd ++ w) g.
Proof.
  intros L. induction wd as [|c wd IH]; simpl; [exact L|].
  exact (lang_Cat (Chr c) (Word wd r) [c] (wd ++ w) [] g (lang_Chr c) IH).
Qed.

Lemma lang_fnstart_inv w g :
  lang fnstart w g -> exists name, fnstart_shape w name /\ g = [name].
Proof.
  intros L. unfold fnstart, lit in L. simpl in L. inv_lang. classes.
  match goal with
  | |- exists name,
        fnstart_shape ((?c0 :: ?f) ++ [?b] ++ _ ++ (?c1 :: ?n) ++ _ ++ _ ++ ?t)
                      name /\ _ =>
      exists (c1 :: n); split; [exists (c0 :: f), b, t|reflexivity]
  end.
  split; [now apply token_cons|]. split; [assumption|].
  split; [now apply token_cons|]. split; [assumption|].
  reflexivity.
Qed.

Lemma lang_fnstart_intro w name :
  fnstart_shape w name -> lang fnstart w [name].
Proof.
  intros (addr & b & trail & [Ha1 Ha2] & Hb & [Hn1 Hn2] & Ht & ->).
  unfold fnstart.
  apply (lang_Cat _ _ addr _ [] [name]); [now apply lang_Plus_token|].
  apply (lang_Cat _ _ [b] _ [] [name]); [now constructor|].
  apply (lang_Word_intro (chars "<") _ _ [name]).
  apply (lang_Cat _ _ name _ [name] []).
  - apply (lang_Group _ name []). now apply lang_Plus_token.
  - apply (lang_Word_intro (chars ">:") _ trail []). now constructor.
Qed.

Lemma fnstart_name_unique w name :
  fnstart_shape w name -> fnstart_name w = name.
Proof.
  intros (addr & b & trail & [Ha1 Ha2] & Hb & [Hn1 Hn2] & Ht & ->).
  unfold fnstart_name.
  destruct addr as [|c f]; [contradiction|].
  change ((c :: f) ++ b :: "<"%char :: name ++ chars ">:" ++ trail)
    with ((c :: f) ++ [b] ++ "<"%char :: name ++ chars ">:" ++ trail).
  rewrite from_field2_label by assumption.
  rewrite app_assoc. apply bracketed_spec; [|exact Ht|reflexivity].
  apply Forall_app. split; [exact Hn2|]. repeat constructor.
Qed.

(** When the groups of a pattern are determined by the line, the slice
    [FindStringSubmatch] returns for a line of the language is the line
    followed by them. *)
Lemma submatch_exact r (extract : list ascii -> list (list ascii)) line g :
  (forall w g', lang r w g' -> g' = extract w) ->
  lang r (chars line) g ->
  FindStringSubmatch r line = Some (line :: map text g).
Proof.
  intros Hu L. destruct (FindStringSubmatch_complete r line g L) as [m Hm].
  rewrite Hm. apply FindStringSubmatch_sound in Hm as (g' & L' & ->).
  now rewrite (Hu _ _ L'), (Hu _ _ L).
Qed.

Lemma lang_fnstart_groups w g : lang fnstart w g -> g = [fnstart_name w].
Proof.
  intros L. apply lang_fnstart_inv in L as (name & Hs & ->).
  now rewrite (fnstart_name_unique w name Hs).
Qed.

(** X1: a line is a function start exactly when it is an address, one
    blank, the name between [<] and [>:], and blanks at most after that;
    the submatch is then the name, the longest such. *)
Theorem fnstart_line_spec (line : string) (m : list string) :
  FindStringSubmatch fnstart line = Some m
  <-> exists name, fnstart_shape (chars line) name /\ m = [line; text name].
Proof.
  split.
  - intros H. apply FindStringSubmatch_sound in H as (g & L & ->).
    apply lang_fnstart_inv in L as (name & Hs & ->). now exists name.
  - intros (name & Hs & ->).
    apply (submatch_exact fnstart (fun w => [fnstart_name w]) line [name]).
    + exact lang_fnstart_groups.
    + now apply lang_fnstart_intro.
Qed.

(** *** Direct calls *)

Lemma lang_dircall_inv w g :
  lang dircallre w g -> exists tgt, dircall_shape w tgt /\ g = [tgt].
Proof.
  intros L. unfold dircallre, lit in L. simpl in L. inv_lang. classes.
  match goal with
  | |- exists tgt,
        dircall_shape (?w0 ++ (?c1 :: ?f1) ++ _ ++ (?b1 :: ?w1) ++ _ ++ _ ++ _
                       ++ _ ++ _ ++ (?b2 :: ?w2) ++ (?c3 :: ?f3)
                       ++ (?b3 :: ?w3) ++ _ ++ (?c4 :: ?f4) ++ _ ++ ?t)
                      tgt /\ _ =>
      exists (c4 :: f4); split;
      [exists w0, (c1 :: f1), (b1 :: w1), (b2 :: w2), (c3 :: f3), (b3 :: w3), t
      |reflexivity]
  end.
  split; [assumption|]. split; [now apply token_cons|].
  split; [now apply blanks_cons|]. split; [now apply blanks_cons|].
  split; [now apply token_cons|]. split; [now apply blanks_cons|].
  split; [now apply token_cons|]. split; [assumption|].
  reflexivity.
Qed.

Lemma lang_insn_prefix_intro w0 addr w1 r w g :
  blank w0 -> token addr -> blanks w1 -> lang r w g ->
  lang (Cat (Star Space) (Cat (Plus NonSpace) (lit ":" (Cat (Plus Space) r))))
       (w0 ++ addr ++ ":"%char :: w1 ++ w) g.
Proof.
  intros H0 [Ha1 Ha2] [Hb1 Hb2] L.
  apply (lang_Cat _ _ w0 _ [] g); [now constructor|].
  apply (lang_Cat _ _ addr _ [] g); [now apply lang_Plus_token|].
  apply (lang_Word_intro (chars ":") _ _ g).
  apply (lang_Cat _ _ w1 _ [] g); [now apply lang_Plus_token|exact L].
Qed.

Lemma lang_dircall_intro w tgt :
  dircall_shape w tgt -> lang dircallre w [tgt].
Proof.
  intros (w0 & addr & w1 & w2 & opnd & w3 & trail
          & H0 & Ha & H1 & [H2 H2'] & [Ho Ho'] & [H3 H3'] & [Ht Ht'] & Htr & ->).
  unfold dircallre. apply lang_insn_prefix_intro; try assumption.
  apply (lang_Word_intro (chars "callq") _ _ [tgt]).
  apply (lang_Cat _ _ w2 _ [] [tgt]); [now apply lang_Plus_token|].
  apply (lang_Cat _ _ opnd _ [] [tgt]); [now apply lang_Plus_token|].
  apply (lang_Cat _ _ w3 _ [] [tgt]); [now apply lang_Plus_token|].
  apply (lang_Word_intro (chars "<") _ _ [tgt]).
  apply (lang_Cat _ _ tgt _ [tgt] []).
  - apply (lang_Group _ tgt []). now apply lang_Plus_token.
  - apply (lang_Word_intro (chars ">") _ trail []). now constructor.
Qed.

Lemma from_field2_prefix w0 addr w1 x rest :
  blank w0 -> token addr -> blanks w1 -> is_space x = false ->
  from_field2 (w0 ++ addr ++ ":"%char :: w1 ++ x :: rest) = x :: rest.
Proof.
  intros H0 [Ha Ha'] [H1 H1'] Hx. destruct addr as [|c f]; [contradiction|].
  now apply (from_field2_insn w0 c f w1 x rest).
Qed.

Lemma dircall_symbol_unique w tgt :
  dircall_shape w tgt -> dircall_symbol w = tgt.
Proof.
  intros (w0 & addr & w1 & w2 & opnd & w3 & trail
          & H0 & Ha & H1 & H2 & [Ho Ho'] & H3 & [Ht Ht'] & Htr & ->).
  unfold dircall_symbol.
  change (chars "callq" ++ w2 ++ opnd ++ w3 ++ "<"%char :: tgt ++ ">"%char :: trail)
    with ("c"%char :: (chars "allq" ++ w2 ++ opnd ++ w3
                         ++ "<"%char :: tgt ++ ">"%char :: trail)).
  rewrite from_field2_prefix by (assumption || reflexivity).
  destruct opnd as [|o opnd]; [contradiction|].
  change ("c"%char :: chars "allq" ++ w2 ++ (o :: opnd) ++ w3
            ++ "<"%char :: tgt ++ ">"%char :: trail)
    with (chars "callq" ++ w2 ++ o :: (opnd ++ w3
            ++ "<"%char :: tgt ++ ">"%char :: trail)).
  rewrite next_field_step; [|repeat constructor|assumption|].
  2:{ apply nonspace_false. now inversion Ho'. }
  change (o :: opnd ++ w3 ++ "<"%char :: tgt ++ ">"%char :: trail)
    with ((o :: opnd) ++ w3 ++ "<"%char :: tgt ++ ">"%char :: trail).
  rewrite next_field_step; [|assumption|assumption|reflexivity].
  change (tgt ++ ">"%char :: trail) with (tgt ++ [">"%char] ++ trail).
  rewrite app_assoc. apply bracketed_spec; [|exact Htr|reflexivity].
  apply Forall_app. split; [exact Ht'|]. repeat constructor.
Qed.

Lemma lang_dircall_groups w g : lang dircallre w g -> g = [dircall_symbol w].
Proof.
  intros L. apply lang_dircall_inv in L as (tgt & Hs & ->).
  now rewrite (dircall_symbol_unique w tgt Hs).
Qed.

(** X2: a line is a direct call exactly when it is an address with a
    colon, [callq], an operand and a symbol between [<] and [>], with
    blanks between the fields; the submatch is then the symbol. *)
Theorem dircall_line_spec (line : string) (m : list string) :
  FindStringSubmatch dircallre line = Some m
  <-> exists tgt, dircall_shape (chars line) tgt /\ m = [line; text tgt].
Proof.
  split.
  - intros H. apply FindStringSubmatch_sound in H as (g & L & ->).
    apply lang_dircall_inv in L as (tgt & Hs & ->). now exists tgt.
  - intros (tgt & Hs & ->).
    apply (submatch_exact dircallre (fun w => [dircall_symbol w]) line [tgt]).
    + exact lang_dircall_groups.
    + now apply lang_dircall_intro.
Qed.

(** *** PLT jumps and generic calls *)

Lemma lang_pltjump_inv w g :
  lang pltjumpre w g -> pltjump_shape w /\ g = [].
Proof.
  intros L. unfold pltjumpre, lit in L. simpl in L. inv_lang. classes.
  split; [|reflexivity].
  match goal with
  | |- pltjump_shape (?w0 ++ (?c1 :: ?f1) ++ _ ++ (?b1 :: ?w1) ++ _ ++ _ ++ _
                      ++ _ ++ (?b2 :: ?w2) ++ (?c3 :: ?f3)
                      ++ (?b3 :: ?w3) ++ _ ++ (?c4 :: ?f4) ++ _ ++ _ ++ _
                      ++ _ ++ _ ++ ?t) =>
      exists w0, (c1 :: f1), (b1 :: w1), (b2 :: w2), (c3 :: f3), (b3 :: w3),
        (c4 :: f4), t
  end.
  split; [assumption|]. split; [now apply token_cons|].
  split; [now apply blanks_cons|]. split; [now apply blanks_cons|].
  split; [now apply token_cons|]. split; [now apply blanks_cons|].
  split; [now apply token_cons|]. split; [assumption|].
  reflexivity.
Qed.

Lemma lang_pltjump_intro w : pltjump_shape w -> lang pltjumpre w [].
Proof.
  intros (w0 & addr & w1 & w2 & opnd & w3 & sym & trail
          & H0 & Ha & H1 & [H2 H2'] & [Ho Ho'] & [H3 H3'] & [Hs Hs'] & Htr & ->).
  unfold pltjumpre. apply lang_insn_prefix_intro; try assumption.
  apply (lang_Word_intro (chars "jmpq") _ _ []).
  apply (lang_Cat _ _ w2 _ [] []); [now apply lang_Plus_token|].
  apply (lang_Cat _ _ opnd _ [] []); [now apply lang_Plus_token|].
  apply (lang_Cat _ _ w3 _ [] []); [now apply lang_Plus_token|].
  apply (lang_Word_intro (chars "<") _ _ []).
  apply (lang_Cat _ _ sym _ [] []); [now apply lang_Plus_token|].
  apply (lang_Word_intro (chars "@plt>") _ trail []). now constructor.
Qed.

(** X3: a line is a PLT jump exactly when it is an address with a colon,
    [jmpq], an operand and a symbol ending in [@plt] between [<] and [>],
    with blanks between the fields. *)
Theorem pltjump_line_spec (line : string) (m : list string) :
  FindStringSubmatch pltjumpre line = Some m
  <-> pltjump_shape (chars line) /\ m = [line].
Proof.
  split.
  - intros H. apply FindStringSubmatch_sound in H as (g & L & ->).
    now apply lang_pltjump_inv in L as (Hs & ->).
  - intros (Hs & ->).
    apply (submatch_exact pltjumpre (fun _ => []) line []).
    + intros w g L. now apply lang_pltjump_inv in L.
    + now apply lang_pltjump_intro.
Qed.

Lemma lang_anycall_inv w g :
  lang anycallre w g -> exists rest, anycall_shape w rest /\ g = [rest].
Proof.
  intros L. unfold anycallre, lit in L. simpl in L. inv_lang. classes.
  match goal with
  | |- exists rest,
        anycall_shape (?w0 ++ (?c1 :: ?f1) ++ _ ++ (?b1 :: ?w1) ++ _ ++ _ ++ _
                       ++ _ ++ _ ++ (?c2 :: ?r)) rest /\ _ =>
      exists (c2 :: r); split;
      [exists w0, (c1 :: f1), (b1 :: w1)|reflexivity]
  end.
  split; [assumption|]. split; [now apply token_cons|].
  split; [now apply blanks_cons|].
  split; [split; [discriminate|now constructor]|].
  reflexivity.
Qed.

Lemma lang_anycall_intro w rest :
  anycall_shape w rest -> lang anycallre w [rest].
Proof.
  intros (w0 & addr & w1 & H0 & Ha & H1 & [Hr Hr'] & ->).
  unfold anycallre. apply lang_insn_prefix_intro; try assumption.
  rewrite <- (app_nil_r rest).
  apply (lang_Word_intro (chars "callq") _ _ [rest ++ []]).
  rewrite app_nil_r.
  apply (lang_Group _ rest []). now apply lang_Plus_token.
Qed.

Lemma anycall_rest_unique w rest :
  anycall_shape w rest -> anycall_rest w = rest.
Proof.
  intros (w0 & addr & w1 & H0 & Ha & H1 & Hr & ->).
  unfold anycall_rest.
  change (chars "callq" ++ rest) with ("c"%char :: (chars "allq" ++ rest)).
  now rewrite from_field2_prefix by (assumption || reflexivity).
Qed.

(** X4: a line is matched by the generic-call pattern exactly when it is
    an address with a colon, blanks, and [callq] followed at once by some
    text without a newline; the submatch is that text. *)
Theorem anycall_line_spec (line : string) (m : list string) :
  FindStringSubmatch anycallre line = Some m
  <-> exists rest, anycall_shape (chars line) rest /\ m = [line; text rest].
Proof.
  split.
  - intros H. apply FindStringSubmatch_sound in H as (g & L & ->).
    apply lang_anycall_inv in L as (rest & Hs & ->). now exists rest.
  - intros (rest & Hs & ->).
    apply (submatch_exact anycallre (fun w => [anycall_rest w]) line [rest]).
    + intros w g L. apply lang_anycall_inv in L as (r & Hs' & ->).
      now rewrite (anycall_rest_unique w r Hs').
    + now apply lang_anycall_intro.
Qed.

Lemma Forall_app_r {A} (P : A -> Prop) (l1 l2 : list A) :
  Forall P (l1 ++ l2) -> Forall P l2.
Proof. intros H. now apply Forall_app in H. Qed.

(** X5: on a line without a newline, which is every line the scanner
    delivers, a direct call is also a match of the generic-call pattern:
    the [else] in front of the generic test loses no call. *)
Theorem direct_call_is_generic (line : string) :
  newline_free line ->
  is_Some (dircall_target line) ->
  is_anycall line = true.
Proof.
  intros Hnl [t Ht]. unfold dircall_target in Ht.
  destruct (FindStringSubmatch dircallre line) as [m|] eqn:E; [|discriminate].
  apply FindStringSubmatch_sound in E as (g & L & _).
  apply lang_dircall_inv in L as (tgt & Hs & _).
  destruct Hs as (w0 & addr & w1 & w2 & opnd & w3 & trail
                  & H0 & Ha & H1 & [H2 H2'] & Ho & H3 & Htg & Htr & Hw).
  unfold is_anycall, is_match.
  destruct (FindStringSubmatch_complete anycallre line
              [w2 ++ opnd ++ w3 ++ "<"%char :: tgt ++ ">"%char :: trail])
    as [m' ->]; [|reflexivity].
  apply lang_anycall_intro.
  exists w0, addr, w1. repeat (split; [assumption|]). split; [|exact Hw].
  split; [destruct w2; [contradiction|discriminate]|].
  unfold newline_free in Hnl.
  change (chars line) with (list_ascii_of_string line) in Hnl.
  rewrite Hw in Hnl.
  apply Forall_app_r in Hnl. apply Forall_app_r in Hnl.
  apply Forall_cons in Hnl as [_ Hnl].
  apply Forall_app_r in Hnl.
  now apply (Forall_app_r _ (chars "callq")) in Hnl.
Qed.

Lemma direct_call_is_generic_witness : is_anycall short_call = true.
Proof.
  apply direct_call_is_generic.
  - forall_compute.
  - vm_compute. eauto.
Defined.

(** ** Lines inside a function body *)

(** The scan of a block of lines that starts no function, in closed
    form: three disjunctions on the flags, nothing else. *)
Lemma scanFrom_summary body sc :
  Forall (fun l => is_fnstart l = false) body ->
  scanFrom sc body
  = {| state :=
         {| seenShort := seenShort (state sc)
                         || existsb (calls "__morestack") body;
            seenLong := seenLong (state sc)
                        || existsb (calls "__morestack_non_split") body;
            seenCall := seenCall (state sc) || existsb is_call body;
            funcs := funcs (state sc);
            collisions := collisions (state sc) |};
       curfunc := curfunc sc |}.
Proof.
  intros Hb.
  destruct (scanFrom_body body sc Hb) as (E1 & E2 & E3 & E4 & E5 & E6).
  cbv zeta in *.
  destruct (scanFrom sc body) as [[a b c f n] cur]. simpl in *.
  now subst.
Qed.

Lemma examineLines_block pre body1 body2 rest :
  scanFrom (scanLines pre) body1 = scanFrom (scanLines pre) body2 ->
  examineLines (pre ++ body1 ++ rest) = examineLines (pre ++ body2 ++ rest).
Proof.
  intros H. unfold examineLines, scanLines in *.
  now rewrite !scanFrom_app, H.
Qed.

(** X6: the order of the lines between two function starts does not
    matter: permuting a block of lines that starts no function, anywhere
    in a stream, leaves the final accumulator (table, counter and flags)
    the same. *)
Theorem body_order_irrelevant (pre body1 body2 rest : list string) :
  body1 ≡ₚ body2 ->
  Forall (fun l => is_fnstart l = false) body1 ->
  examineLines (pre ++ body1 ++ rest) = examineLines (pre ++ body2 ++ rest).
Proof.
  intros Hp H1. apply examineLines_block.
  assert (H2 : Forall (fun l => is_fnstart l = false) body2)
    by now rewrite <- Hp.
  rewrite (scanFrom_summary body1 _ H1), (scanFrom_summary body2 _ H2).
  now rewrite !(existsb_Permutation _ _ _ Hp).
Qed.

Lemma body_order_irrelevant_witness :
  examineLines (["0000000000001000 <foo>:"] ++ body_short_generic
                  ++ ["0000000000002000 <bar>:"])
  = examineLines (["0000000000001000 <foo>:"] ++ body_generic_short
                    ++ ["0000000000002000 <bar>:"]).
Proof.
  apply (body_order_irrelevant ["0000000000001000 <foo>:"]
           body_short_generic body_generic_short
           ["0000000000002000 <bar>:"]).
  - apply perm_swap.
  - forall_compute.
Defined.

Lemma unmatched_split line :
  unmatched line = true -> is_fnstart line = false /\ is_call line = false.
Proof.
  unfold unmatched. intros H. apply andb_true_iff in H as [H1 H2].
  split; [now apply negb_true_iff in H1|now apply negb_true_iff in H2].
Qed.

Lemma existsb_false {A} (f : A -> bool) l :
  Forall (fun x => f x = false) l -> existsb f l = false.
Proof. induction 1 as [|x l Hx _ IH]; simpl; [reflexivity|now rewrite Hx]. Qed.

(** X7: lines that none of the four patterns matches are ignored: a
    block of them, put anywhere in a stream, changes nothing in the final
    accumulator. *)
Theorem unmatched_lines_ignored (pre other rest : list string) :
  Forall (fun l => unmatched l = true) other ->
  examineLines (pre ++ other ++ rest) = examineLines (pre ++ rest).
Proof.
  intros Ho. change (pre ++ rest) with (pre ++ [] ++ rest).
  apply examineLines_block.
  assert (Hf : Forall (fun l => is_fnstart l = false) other).
  { eapply Forall_impl; [exact Ho|]. intros l Hl. now apply unmatched_split. }
  assert (Hc : existsb is_call other = false).
  { apply existsb_false. eapply Forall_impl; [exact Ho|].
    intros l Hl. now apply unmatched_split. }
  rewrite (scanFrom_summary other _ Hf).
  rewrite Hc, !(existsb_calls_is_call _ _ Hc), !orb_false_r.
  simpl. now destruct (scanLines pre) as [[a b c f n] cur].
Qed.

Lemma unmatched_lines_ignored_witness :
  examineLines (take 2 scenarioA
                  ++ [insn "    1006:" "retq"; "";
                      "Disassembly of section .fini:"]
                  ++ drop 2 scenarioA)
  = examineLines (take 2 scenarioA ++ drop 2 scenarioA).
Proof.
  apply (unmatched_lines_ignored (take 2 scenarioA)
           [insn "    1006:" "retq"; ""; "Disassembly of section .fini:"]
           (drop 2 scenarioA)).
  forall_compute.
Defined.

(** ** The category of a function *)

(** X8: every function after the first one of a stream gets, when it is
    recorded, exactly the category of its body: SplitLarge with a call to
    the long helper, else SplitSmall with a call to the short helper, else
    NoSplit with any call-relevant line, else Leaf. *)
Theorem later_function_category (pre : list string) (start : string)
        (body : list string) :
  existsb is_fnstart pre = true ->
  is_fnstart start = true ->
  Forall (fun l => is_fnstart l = false) body ->
  let sc := scanLines (pre ++ start :: body) in
  FindStringSubmatch fnstart start = Some [start; curfunc sc]
  /\ disposition (state sc) = body_category body
  /\ finish sc = recordFunc (state sc) (curfunc sc).
Proof.
  intros Hpre. apply opened_function_category.
  unfold leaks. now rewrite Hpre.
Qed.

Lemma later_function_category_witness :
  disposition (state (scanLines scenarioA)) = Leaf.
Proof.
  destruct (later_function_category (take 2 scenarioA)
              "0000000000002000 <bar>:" []) as (_ & H & _).
  - vm_compute. reflexivity.
  - vm_compute. reflexivity.
  - constructor.
  - exact H.
Defined.

(** X9: the first function of a stream is categorized by every line from
    the start of the stream to the end of its body: the lines before its
    start line count as if they were in its body. *)
Theorem first_function_category (pre : list string) (start : string)
        (body : list string) :
  Forall (fun l => is_fnstart l = false) pre ->
  is_fnstart start = true ->
  Forall (fun l => is_fnstart l = false) body ->
  let sc := scanLines (pre ++ start :: body) in
  FindStringSubmatch fnstart start = Some [start; curfunc sc]
  /\ funcs (state sc) = ∅
  /\ disposition (state sc) = body_category (pre ++ body).
Proof.
  intros Hpre Hstart Hbody sc. unfold sc, scanLines.
  rewrite scanFrom_app.
  change (scanFrom (scanFrom init_scan pre) (start :: body))
    with (scanFrom (scanLine (scanFrom init_scan pre) start) body).
  rewrite (scanFrom_summary pre init_scan Hpre). simpl.
  set (sc0 := {| state := _; curfunc := "" |}).
  destruct (scanLine_fnstart sc0 start Hstart) as (_ & _ & Hm).
  pose proof (fnstart_first_keeps sc0 start Hstart eq_refl) as Hk.
  rewrite (scanFrom_summary body _ Hbody).
  cbn [state curfunc funcs]. rewrite Hk.
  split; [exact Hm|]. split; [reflexivity|].
  unfold disposition, body_category. simpl.
  now rewrite !existsb_app.
Qed.

Lemma first_function_category_witness :
  disposition (state (scanLines stream_early_call_plt)) = SplitSmall.
Proof.
  destruct (first_function_category (take 1 stream_early_call_plt)
              "0000000000001000 <foo>:" (drop 2 stream_early_call_plt))
    as (_ & _ & H).
  - forall_compute.
  - vm_compute. reflexivity.
  - forall_compute.
  - exact H.
Defined.

(** ** The table along a stream *)

Lemma chars_append a b : chars (a +:+ b) = chars a ++ chars b.
Proof. induction a as [|c a IH]; simpl; [reflexivity|]. now rewrite <- IH. Qed.

Lemma collision_name_percent f n : has_percent (collision_name f n) = true.
Proof.
  unfold has_percent, collision_name. rewrite chars_append, existsb_app.
  simpl. now rewrite orb_true_r.
Qed.

(** What one call of [recordFunc] does to the keys. *)
Lemma recordFunc_keeps_keys s f k :
  is_Some (funcs s !! k) -> is_Some (funcs (recordFunc s f) !! k).
Proof.
  intros [v Hv]. destruct (recordFunc_writes s f) as (key & disp & -> & _).
  destruct (decide (key = k)) as [->|Hne].
  - rewrite lookup_insert_eq. eauto.
  - rewrite lookup_insert_ne by assumption. eauto.
Qed.

Lemma recordFunc_name_is_key s f : is_Some (funcs (recordFunc s f) !! f).
Proof.
  destruct (funcs s !! f) as [odisp|] eqn:E.
  - apply recordFunc_keeps_keys. rewrite E. eauto.
  - destruct (recordFunc_fresh s f E) as [-> _].
    rewrite lookup_insert_eq. eauto.
Qed.

Lemma recordFunc_keeps_plain s f k v :
  has_percent k = false ->
  funcs s !! k = Some v -> funcs (recordFunc s f) !! k = Some v.
Proof.
  intros Hk Hv. destruct (funcs s !! f) as [odisp|] eqn:E.
  - destruct (recordFunc_collision s f odisp E) as [-> _].
    rewrite lookup_insert_ne; [exact Hv|].
    intros <-. now rewrite collision_name_percent in Hk.
  - destruct (recordFunc_fresh s f E) as [-> _].
    rewrite lookup_insert_ne; [exact Hv|]. congruence.
Qed.

Lemma recordFunc_new_key s f k :
  is_Some (funcs (recordFunc s f) !! k) ->
  is_Some (funcs s !! k) \/ k = f \/ exists n, k = collision_name f n.
Proof.
  intros H. destruct (funcs s !! f) as [odisp|] eqn:E.
  - destruct (recordFunc_collision s f odisp E) as [Hf _]. rewrite Hf in H.
    destruct (decide (collision_name f (add64 (collisions s) 1) = k)) as [<-|Hne].
    + right. right. eauto.
    + rewrite lookup_insert_ne in H by assumption. now left.
  - destruct (recordFunc_fresh s f E) as [Hf _]. rewrite Hf in H.
    destruct (decide (f = k)) as [<-|Hne]; [now right; left|].
    rewrite lookup_insert_ne in H by assumption. now left.
Qed.

(** The two ways one call of [recordFunc] moves the size of the table and
    the counter. *)
Lemma recordFunc_counts s f :
  (size (funcs (recordFunc s f)) = S (size (funcs s))
   /\ collisions (recordFunc s f) = collisions s)
  \/ (collisions (recordFunc s f) = add64 (collisions s) 1
      /\ (size (funcs s) <= size (funcs (recordFunc s f)) <= S (size (funcs s)))%nat).
Proof.
  destruct (funcs s !! f) as [odisp|] eqn:E.
  - right. destruct (recordFunc_collision s f odisp E) as [-> ->].
    split; [reflexivity|]. rewrite map_size_insert.
    destruct (funcs s !! collision_name f (add64 (collisions s) 1));
      cbv beta iota delta [id]; lia.
  - left. destruct (recordFunc_fresh s f E) as [-> ->].
    split; [|reflexivity]. now apply map_size_insert_None.
Qed.

(** The stream one line longer. *)
Lemma scanLines_snoc l x : scanLines (l ++ [x]) = scanLine (scanLines l) x.
Proof. unfold scanLines. now rewrite scanFrom_app. Qed.

Lemma function_names_app l1 l2 :
  function_names (l1 ++ l2) = function_names l1 ++ function_names l2.
Proof. unfold function_names. apply omap_app. Qed.

Lemma scan_step l x :
  let sc := scanLines l in
  let sc' := scanLines (l ++ [x]) in
  (function_names (l ++ [x]) = function_names l
   /\ curfunc sc' = curfunc sc
   /\ funcs (state sc') = funcs (state sc)
   /\ collisions (state sc') = collisions (state sc))
  \/ (exists nm,
        nm <> ""
        /\ function_names (l ++ [x]) = function_names l ++ [nm]
        /\ curfunc sc' = nm
        /\ state sc' = if decide (curfunc sc = "") then state sc
                       else recordFunc (state sc) (curfunc sc)).
Proof.
  intros sc sc'. unfold sc'. rewrite scanLines_snoc, function_names_app.
  fold sc. destruct (is_fnstart x) eqn:E.
  - right. destruct (scanLine_fnstart sc x E) as (Hs & Hne & Hm).
    exists (curfunc (scanLine sc x)). split; [exact Hne|].
    split; [|split; [reflexivity|exact Hs]].
    unfold function_names at 2. simpl. now rewrite Hm.
  - left. destruct (scanLine_other sc x E) as (E1 & E2 & E3 & _).
    split; [|auto]. unfold function_names at 2. simpl.
    unfold is_fnstart, is_match in E.
    destruct (FindStringSubmatch fnstart x); [discriminate|].
    simpl. apply app_nil_r.
Qed.

Lemma function_names_nonempty l : Forall (fun n => n <> "") (function_names l).
Proof.
  induction l as [|x l IH] using rev_ind; [constructor|].
  destruct (scan_step l x) as [(-> & _)|(nm & Hne & -> & _)]; [exact IH|].
  apply Forall_app. split; [exact IH|]. now repeat constructor.
Qed.

(** The open function is the last name seen, and none is open before the
    first function start. *)
Lemma curfunc_last l :
  curfunc (scanLines l) = default "" (last (function_names l)).
Proof.
  induction l as [|x l IH] using rev_ind; [reflexivity|].
  destruct (scan_step l x) as [(-> & -> & _)|(nm & Hne & -> & -> & _)];
    [exact IH|].
  now rewrite last_snoc.
Qed.

Lemma curfunc_empty_iff l :
  curfunc (scanLines l) = "" <-> function_names l = [].
Proof.
  rewrite curfunc_last. split; [|now intros ->].
  intros H. destruct (function_names l) as [|n ns] eqn:E using rev_ind;
    [reflexivity|].
  rewrite last_snoc in H. simpl in H. subst n.
  pose proof (function_names_nonempty l) as Hne. rewrite E in Hne.
  apply Forall_app in Hne as [_ Hne]. now inversion Hne.
Qed.

Lemma curfunc_is_name l :
  curfunc (scanLines l) <> "" -> curfunc (scanLines l) ∈ function_names l.
Proof.
  rewrite curfunc_last.
  destruct (function_names l) as [|n ns] using rev_ind; [now intros []|].
  intros _. rewrite last_snoc. simpl. set_solver.
Qed.

Lemma scanLine_keeps_plain sc x k v :
  has_percent k = false ->
  funcs (state sc) !! k = Some v ->
  funcs (state (scanLine sc x)) !! k = Some v.
Proof.
  intros Hk Hv. destruct (is_fnstart x) eqn:E.
  - destruct (scanLine_fnstart sc x E) as (-> & _).
    destruct (decide (curfunc sc = "")); [exact Hv|].
    now apply recordFunc_keeps_plain.
  - now destruct (scanLine_other sc x E) as (_ & -> & _).
Qed.

Lemma scanFrom_keeps_plain lines : forall sc k v,
  has_percent k = false ->
  funcs (state sc) !! k = Some v ->
  funcs (state (scanFrom sc lines)) !! k = Some v.
Proof.
  induction lines as [|x lines IH]; intros sc k v Hk Hv; simpl; [exact Hv|].
  apply IH; [exact Hk|]. now apply scanLine_keeps_plain.
Qed.

(** X10: an entry under a key without a percent sign is final: once a
    prefix of the stream has put it in the table, no later line changes or
    removes it, so a name keeps the category of its first occurrence. *)
Theorem plain_entry_is_final (l1 l2 : list string) (k : string) (v : FnType) :
  has_percent k = false ->
  funcs (state (scanLines l1)) !! k = Some v ->
  funcs (examineLines (l1 ++ l2)) !! k = Some v.
Proof.
  intros Hk Hv. unfold examineLines, finish, scanLines in *.
  rewrite scanFrom_app.
  pose proof (scanFrom_keeps_plain l2 _ k v Hk Hv) as H.
  destruct (decide _); [exact H|]. now apply recordFunc_keeps_plain.
Qed.

Lemma plain_entry_is_final_witness :
  funcs (examineLines
           (scenarioA ++ ["0000000000003000 <foo>:";
                          insn "    3000:" "callq  2000 <__morestack_non_split>"]))
  !! "foo" = Some SplitSmall.
Proof.
  apply (plain_entry_is_final scenarioA).
  - vm_compute. reflexivity.
  - vm_compute. reflexivity.
Defined.

(** Every name seen so far is the open function or a key. *)
Lemma running_names l m :
  m ∈ function_names l ->
  m = curfunc (scanLines l) \/ is_Some (funcs (state (scanLines l)) !! m).
Proof.
  revert m. induction l as [|x l IH] using rev_ind; intros m Hm.
  - now apply elem_of_nil in Hm.
  - destruct (scan_step l x) as [(En & Ec & Ef & _)|(nm & Hne & En & Ec & Es)].
    + rewrite En in Hm. rewrite Ec, Ef. now apply IH.
    + rewrite En in Hm. rewrite Ec, Es.
      apply elem_of_app in Hm. destruct Hm as [Hm'|Hm'];
        [|left; now apply list_elem_of_singleton in Hm'].
      right. destruct (IH m Hm') as [->|Hk].
      * destruct (decide (curfunc (scanLines l) = "")) as [E|E].
        -- apply curfunc_empty_iff in E. rewrite E in Hm'.
           now apply elem_of_nil in Hm'.
        -- apply recordFunc_name_is_key.
      * destruct (decide _); [exact Hk|]. now apply recordFunc_keeps_keys.
Qed.

(** X11: no function is lost: the name on every function-start line of a
    stream is a key of the final table. *)
Theorem every_name_is_a_key (lines : list string) (n : string) :
  n ∈ function_names lines ->
  is_Some (funcs (examineLines lines) !! n).
Proof.
  intros Hn. unfold examineLines, finish.
  destruct (running_names lines n Hn) as [->|Hk].
  - destruct (decide (curfunc (scanLines lines) = "")) as [E|E].
    + apply curfunc_empty_iff in E. rewrite E in Hn.
      now apply elem_of_nil in Hn.
    + apply recordFunc_name_is_key.
  - destruct (decide _); [exact Hk|]. now apply recordFunc_keeps_keys.
Qed.

Lemma every_name_is_a_key_witness :
  is_Some (funcs (examineLines stream_shadow) !! "f%1").
Proof.
  apply every_name_is_a_key. vm_compute. set_solver.
Defined.

(** X12: no key is made up: every key of the final table is the name on
    a function-start line of the stream or such a name followed by a
    percent sign and a number. *)
Theorem every_key_is_a_name (lines : list string) (k : string) :
  is_Some (funcs (examineLines lines) !! k) ->
  k ∈ function_names lines
  \/ exists (f : string) (n : Z),
      f ∈ function_names lines /\ k = f +:+ "%" +:+ pretty n.
Proof.
  assert (Inv : forall l m, is_Some (funcs (state (scanLines l)) !! m) ->
            m ∈ function_names l
            \/ exists f n, f ∈ function_names l /\ m = collision_name f n).
  { induction l as [|x l IH] using rev_ind; intros m Hm.
    - destruct Hm as [? Hm]. unfold scanLines in Hm. simpl in Hm.
      now rewrite lookup_empty in Hm.
    - destruct (scan_step l x) as [(En & Ec & Ef & _)|(nm & Hne & En & Ec & Es)].
      + rewrite En. rewrite Ef in Hm. now apply IH.
      + rewrite En. rewrite Es in Hm.
        assert (Hold : is_Some (funcs (state (scanLines l)) !! m) ->
                  m ∈ function_names l ++ [nm]
                  \/ exists f n, f ∈ function_names l ++ [nm]
                                 /\ m = collision_name f n).
        { intros H. destruct (IH m H) as [H'|(f & n & Hf & ->)].
          - left. set_solver.
          - right. exists f, n. split; [set_solver|reflexivity]. }
        destruct (decide (curfunc (scanLines l) = "")) as [E|E];
          [now apply Hold|].
        apply recordFunc_new_key in Hm as [Hm'|[->|(n & ->)]].
        * now apply Hold.
        * left. apply elem_of_app. left. now apply curfunc_is_name.
        * right. exists (curfunc (scanLines l)), n.
          split; [|reflexivity]. apply elem_of_app. left.
          now apply curfunc_is_name. }
  intros Hk. unfold examineLines, finish in Hk.
  destruct (decide (curfunc (scanLines lines) = "")) as [E|E];
    [now apply Inv|].
  apply recordFunc_new_key in Hk as [Hk'|[->|(n & ->)]].
  - now apply Inv.
  - left. now apply curfunc_is_name.
  - right. exists (curfunc (scanLines lines)), n.
    split; [|reflexivity]. now apply curfunc_is_name.
Qed.

Lemma every_key_is_a_name_witness :
  "a%1" ∈ function_names stream_a_a_b_b
  \/ exists (f : string) (n : Z),
      f ∈ function_names stream_a_a_b_b /\ "a%1" = f +:+ "%" +:+ pretty n.
Proof.
  apply every_key_is_a_name. vm_compute. eauto.
Defined.

(** X13: an empty table means no function: the final table is empty
    exactly when no line of the stream is a function start, whatever
    calls the stream holds. *)
Theorem empty_table_iff (lines : list string) :
  funcs (examineLines lines) = ∅ <-> function_names lines = [].
Proof.
  split.
  - intros He. destruct (function_names lines) as [|n ns] eqn:E;
      [reflexivity|]. exfalso.
    unfold examineLines, finish in He.
    destruct (decide (curfunc (scanLines lines) = "")) as [Hc|Hc].
    + apply curfunc_empty_iff in Hc. congruence.
    + destruct (recordFunc_name_is_key (state (scanLines lines))
                  (curfunc (scanLines lines))) as [v Hv].
      rewrite He, lookup_empty in Hv. discriminate.
  - intros Hn. pose proof (proj2 (curfunc_empty_iff lines) Hn) as Hc.
    unfold examineLines, finish. rewrite decide_True by exact Hc.
    clear Hc. induction lines as [|x l IH] using rev_ind; [reflexivity|].
    destruct (scan_step l x) as [(En & _ & -> & _)|(nm & _ & En & _)].
    + apply IH. now rewrite <- En.
    + rewrite En in Hn. now destruct (function_names l).
Qed.

Lemma functions_seen_snoc l x :
  functions_seen (l ++ [x]) = functions_seen l
  \/ functions_seen (l ++ [x]) = S (functions_seen l).
Proof.
  unfold functions_seen.
  destruct (scan_step l x) as [(-> & _)|(nm & _ & -> & _)]; [now left|].
  right. rewrite length_app. simpl. lia.
Qed.

Lemma open_function_seen l :
  curfunc (scanLines l) <> "" -> (0 < functions_seen l)%nat.
Proof.
  intros H. unfold functions_seen.
  destruct (function_names l) eqn:E; [|simpl; lia].
  now apply curfunc_empty_iff in E.
Qed.

Lemma no_function_seen l :
  curfunc (scanLines l) = "" -> functions_seen l = 0%nat.
Proof.
  intros H. apply curfunc_empty_iff in H. unfold functions_seen.
  now rewrite H.
Qed.

(** While a function is open, one function fewer has been recorded than
    seen. *)
Lemma running_size l :
  (size (funcs (state (scanLines l))) <= functions_seen l - 1)%nat.
Proof.
  induction l as [|x l IH] using rev_ind; [reflexivity|].
  destruct (scan_step l x) as [(En & _ & -> & _)|(nm & _ & En & _ & ->)];
    unfold functions_seen in *; rewrite En; [exact IH|].
  rewrite length_app. simpl.
  destruct (decide (curfunc (scanLines l) = "")) as [E|E].
  - rewrite (proj1 (curfunc_empty_iff l) E) in *. simpl in *. lia.
  - pose proof (open_function_seen l E) as Hpos. unfold functions_seen in Hpos.
    destruct (recordFunc_counts (state (scanLines l)) (curfunc (scanLines l)))
      as [[Hs _]|[_ Hs]]; lia.
Qed.

(** X14: the table never holds more entries than the stream has function
    starts. *)
Theorem table_no_larger_than_functions (lines : list string) :
  (size (funcs (examineLines lines)) <= functions_seen lines)%nat.
Proof.
  pose proof (running_size lines) as H. unfold examineLines, finish.
  destruct (decide (curfunc (scanLines lines) = "")) as [E|E]; [lia|].
  pose proof (open_function_seen lines E) as Hpos.
  destruct (recordFunc_counts (state (scanLines lines))
              (curfunc (scanLines lines))) as [[Hs _]|[_ Hs]]; lia.
Qed.

Lemma running_counter l :
  Z.of_nat (functions_seen l) <= int64_max ->
  0 <= collisions (state (scanLines l))
    <= Z.of_nat (functions_seen l - 1)
  /\ Z.of_nat (functions_seen l - 1)
     <= Z.of_nat (size (funcs (state (scanLines l))))
        + collisions (state (scanLines l)).
Proof.
  induction l as [|x l IH] using rev_ind; intros Hmax.
  { unfold scanLines. simpl. lia. }
  assert (Hmax' : Z.of_nat (functions_seen l) <= int64_max).
  { destruct (functions_seen_snoc l x) as [E|E]; rewrite E in Hmax; lia. }
  specialize (IH Hmax').
  destruct (scan_step l x) as [(En & _ & Ef & Ec)|(nm & _ & En & _ & Es)].
  { unfold functions_seen in *. rewrite En, Ef, Ec. exact IH. }
  assert (Hfs : functions_seen (l ++ [x]) = S (functions_seen l)).
  { unfold functions_seen. rewrite En, length_app. simpl. lia. }
  rewrite Hfs in *. rewrite Es.
  destruct (decide (curfunc (scanLines l) = "")) as [E|E].
  - rewrite (no_function_seen l E) in *. simpl in *. lia.
  - pose proof (open_function_seen l E) as Hpos.
    destruct (recordFunc_counts (state (scanLines l)) (curfunc (scanLines l)))
      as [[Hs Hc]|[Hc Hs]]; rewrite Hc.
    + lia.
    + rewrite add64_succ by (unfold int64_min, int64_max in *; lia). lia.
Qed.

(** X15: every function seen is accounted for: in a stream with fewer
    than 2^63 function starts the counter is between 0 and the number of
    function starts, and the entries of the table and the collisions
    counted together are at least the function starts. *)
Theorem functions_accounted_for (lines : list string) :
  Z.of_nat (functions_seen lines) < int64_max ->
  let s := examineLines lines in
  0 <= collisions s <= Z.of_nat (functions_seen lines)
  /\ Z.of_nat (functions_seen lines)
     <= Z.of_nat (size (funcs s)) + collisions s.
Proof.
  intros Hmax s. unfold s, examineLines, finish.
  destruct (running_counter lines) as [Hc Hs]; [lia|].
  destruct (decide (curfunc (scanLines lines) = "")) as [E|E].
  - rewrite (no_function_seen lines E) in *. simpl in *. lia.
  - pose proof (open_function_seen lines E) as Hpos.
    destruct (recordFunc_counts (state (scanLines lines))
                (curfunc (scanLines lines))) as [[Hs' Hc']|[Hc' Hs']];
      rewrite Hc'.
    + lia.
    + rewrite add64_succ by (unfold int64_min, int64_max in *; lia). lia.
Qed.

Lemma functions_accounted_for_witness :
  Z.of_nat (functions_seen stream_shadow)
  <= Z.of_nat (size (funcs (examineLines stream_shadow)))
     + collisions (examineLines stream_shadow).
Proof.
  apply (functions_accounted_for stream_shadow). vm_compute. reflexivity.
Defined.

Lemma running_distinct l :
  NoDup (function_names l) ->
  dom (funcs (state (scanLines l)))
  = list_to_set (function_names l) ∖ {[ curfunc (scanLines l) ]}
  /\ collisions (state (scanLines l)) = 0.
Proof.
  induction l as [|x l IH] using rev_ind; intros Hnd.
  { unfold scanLines. simpl. split; [set_solver|reflexivity]. }
  destruct (scan_step l x) as [(En & Ec & Ef & Eo)|(nm & _ & En & Ec & Es)].
  { rewrite En in *. rewrite Ec, Ef, Eo. now apply IH. }
  rewrite En in *. apply NoDup_app in Hnd as (Hnd & Hnm & _).
  destruct (IH Hnd) as [Hdom Hcol]. rewrite Ec, Es.
  assert (Hfresh : nm ∉ function_names l).
  { intros Hin. apply (Hnm nm Hin). set_solver. }
  destruct (decide (curfunc (scanLines l) = "")) as [E|E].
  - split; [|exact Hcol]. rewrite Hdom.
    rewrite (proj1 (curfunc_empty_iff l) E). set_solver.
  - pose proof (curfunc_is_name l E) as Hin.
    assert (Hnone : funcs (state (scanLines l)) !! curfunc (scanLines l) = None).
    { apply not_elem_of_dom. rewrite Hdom. set_solver. }
    destruct (recordFunc_fresh _ _ Hnone) as [-> ->].
    split; [|exact Hcol]. rewrite dom_insert_L, Hdom.
    apply set_eq. intros k. rewrite !elem_of_union, !elem_of_difference,
      !elem_of_singleton, !elem_of_list_to_set, elem_of_app,
      list_elem_of_singleton.
    generalize dependent (curfunc (scanLines l)). intros c _ Hc _.
    destruct (decide (k = c)) as [->|]; [|naive_solver].
    split; [|tauto]. intros _. split; [tauto|]. intros ->. contradiction.
Qed.

(** X16: when the names on the function-start lines are all different,
    nothing collides: the keys of the final table are exactly those
    names, one entry per function, and the counter stays 0. *)
Theorem distinct_names_table (lines : list string) :
  NoDup (function_names lines) ->
  let s := examineLines lines in
  dom (funcs s) = list_to_set (function_names lines)
  /\ size (funcs s) = functions_seen lines
  /\ collisions s = 0.
Proof.
  intros Hnd s.
  assert (H : dom (funcs s) = list_to_set (function_names lines)
              /\ collisions s = 0).
  { destruct (running_distinct lines Hnd) as [Hdom Hcol].
    unfold s, examineLines, finish.
    destruct (decide (curfunc (scanLines lines) = "")) as [E|E].
    - split; [|exact Hcol]. rewrite Hdom.
      rewrite (proj1 (curfunc_empty_iff lines) E). set_solver.
    - pose proof (curfunc_is_name lines E) as Hin.
      assert (Hnone : funcs (state (scanLines lines))
                        !! curfunc (scanLines lines) = None).
      { apply not_elem_of_dom. rewrite Hdom. set_solver. }
      destruct (recordFunc_fresh _ _ Hnone) as [-> ->].
      split; [|exact Hcol]. rewrite dom_insert_L, Hdom.
      apply set_eq. intros k. rewrite !elem_of_union, !elem_of_difference,
        !elem_of_singleton, !elem_of_list_to_set.
      generalize dependent (curfunc (scanLines lines)). intros c.
      intros. destruct (decide (k = c)) as [->|]; naive_solver. }
  destruct H as [Hdom Hcol]. split; [exact Hdom|]. split; [|exact Hcol].
  rewrite <- size_dom, Hdom. unfold functions_seen.
  now apply size_list_to_set.
Qed.

Lemma distinct_names_table_witness :
  size (funcs (examineLines scenarioA)) = functions_seen scenarioA
  /\ collisions (examineLines scenarioA) = 0.
Proof.
  destruct (distinct_names_table scenarioA) as (_ & H1 & H2).
  - apply (bool_decide_unpack _). vm_compute. reflexivity.
  - split; assumption.
Defined.

(** ** [analyze] on a corrupted table *)

Lemma analyze_loop_stops before fn after : forall lv ns short long,
  Forall (λ kv : string * FnType, kv.2 <> Unknown) before ->
  analyze_loop (before ++ (fn, Unknown) :: after) lv ns short long
  = Fatal ("corrupted funcs table entry at " +:+ fn).
Proof.
  induction before as [|[k v] before IH]; intros lv ns short long H;
    [reflexivity|].
  inversion H as [|? ? Hv H']; subst. simpl in Hv |- *.
  destruct v; [now contradict Hv|..]; now apply IH.
Qed.

Lemma first_unknown entries :
  Exists (λ kv : string * FnType, kv.2 = Unknown) entries ->
  exists before fn after,
    entries = before ++ (fn, Unknown) :: after
    /\ Forall (λ kv : string * FnType, kv.2 <> Unknown) before.
Proof.
  induction entries as [|[k v] entries IH]; intros H.
  - now apply Exists_nil in H.
  - destruct (decide (v = Unknown)) as [->|Hv].
    + exists [], k, entries. split; [reflexivity|constructor].
    + apply Exists_cons in H as [H|H]; [simpl in H; contradiction|].
      destruct (IH H) as (before & fn & after & -> & Hb).
      exists ((k, v) :: before), fn, after.
      split; [reflexivity|]. now constructor.
Qed.

(** X17: on entries some of which hold the zero value, [analyze] stops
    with the message "corrupted funcs table entry at" and the key of the
    first such entry in the iteration order, and returns no counts. *)
Theorem analyze_stops_at_unknown (entries : list (string * FnType)) :
  Exists (λ kv : string * FnType, kv.2 = Unknown) entries ->
  exists before fn after,
    entries = before ++ (fn, Unknown) :: after
    /\ Forall (λ kv : string * FnType, kv.2 <> Unknown) before
    /\ analyze_entries entries
       = Fatal ("corrupted funcs table entry at " +:+ fn).
Proof.
  intros H. destruct (first_unknown entries H) as (before & fn & after & -> & Hb).
  exists before, fn, after. split; [reflexivity|]. split; [exact Hb|].
  now apply analyze_loop_stops.
Qed.

Lemma analyze_stops_at_unknown_witness :
  exists before fn after,
    [("a", Leaf); ("b", Unknown); ("c", Unknown)]
    = before ++ (fn, Unknown) :: after
    /\ Forall (λ kv : string * FnType, kv.2 <> Unknown) before
    /\ analyze_entries [("a", Leaf); ("b", Unknown); ("c", Unknown)]
       = Fatal ("corrupted funcs table entry at " +:+ fn).
Proof.
  apply analyze_stops_at_unknown.
  apply Exists_cons. right. apply Exists_cons. left. reflexivity.
Defined.

(** ** The detail listing *)

Lemma collect_Permutation typ (l1 l2 : list (string * FnType)) :
  l1 ≡ₚ l2 -> collect typ l1 ≡ₚ collect typ l2.
Proof. intros H. unfold collect. now rewrite H. Qed.

Lemma elem_of_collect typ (entries : list (string * FnType)) n :
  n ∈ collect typ entries <-> (n, typ) ∈ entries.
Proof.
  unfold collect. rewrite list_elem_of_fmap. split.
  - intros ([k v] & -> & Hin). apply list_elem_of_filter in Hin as [Hv Hin].
    simpl in *. now subst v.
  - intros Hin. exists (n, typ). split; [reflexivity|].
    apply list_elem_of_filter. now split.
Qed.

Lemma length_collect typ (entries : list (string * FnType)) :
  Z.of_nat (length (collect typ entries)) = count_of typ entries.
Proof. unfold collect, count_of. now rewrite length_fmap. Qed.

Lemma detail_names_order (s : astate) typ entries :
  iteration_of s entries ->
  detail_names typ entries = detail_names typ (map_to_list (funcs s)).
Proof.
  intros Hp. unfold detail_names, sort_Strings.
  apply (Sorted_unique String.le).
  - apply Sorted_merge_sort. apply _.
  - apply Sorted_merge_sort. apply _.
  - rewrite !merge_sort_Permutation. now apply collect_Permutation.
Qed.

(** X18: the names listed for a category are exactly the keys of the
    table in that category, each once, in ascending order, and the list
    is the same for every iteration order of the map. *)
Theorem detail_names_spec (s : astate) (typ : FnType)
        (entries : list (string * FnType)) :
  iteration_of s entries ->
  let names := detail_names typ entries in
  (forall n, n ∈ names <-> funcs s !! n = Some typ)
  /\ NoDup names
  /\ Sorted String.le names
  /\ names = detail_names typ (map_to_list (funcs s)).
Proof.
  intros Hp names. unfold iteration_of in Hp.
  assert (Hperm : names ≡ₚ collect typ (map_to_list (funcs s))).
  { unfold names, detail_names, sort_Strings.
    rewrite merge_sort_Permutation. now apply collect_Permutation. }
  split; [|split; [|split]].
  - intros n. rewrite Hperm, elem_of_collect. apply elem_of_map_to_list.
  - rewrite Hperm. unfold collect. apply NoDup_fmap_fst.
    + intros k v1 v2 H1 H2.
      apply list_elem_of_filter in H1 as [_ H1], H2 as [_ H2].
      apply elem_of_map_to_list in H1, H2. congruence.
    + apply NoDup_filter, NoDup_map_to_list.
  - apply Sorted_merge_sort. apply _.
  - now apply detail_names_order.
Qed.

Lemma detail_names_spec_witness :
  detail_names Leaf [("b", Leaf); ("foo", SplitSmall); ("a%1", Leaf); ("a", Leaf)]
  = detail_names Leaf
      (map_to_list ({[ "a" := Leaf; "a%1" := Leaf; "b" := Leaf;
                       "foo" := SplitSmall ]} : gmap string FnType)).
Proof.
  pose (s := {| seenShort := false; seenLong := false; seenCall := false;
                funcs := {[ "a" := Leaf; "a%1" := Leaf; "b" := Leaf;
                            "foo" := SplitSmall ]};
                collisions := 1 |}).
  destruct (detail_names_spec s Leaf
              [("b", Leaf); ("foo", SplitSmall); ("a%1", Leaf); ("a", Leaf)])
    as (_ & _ & _ & H).
  - unfold iteration_of. apply (bool_decide_unpack _). vm_compute. reflexivity.
  - exact H.
Defined.

(** X19: the report does not depend on the order in which Go ranges over
    the map: for a table without zero-valued entries and with fewer than
    2^63 keys the printed text is the same for all iteration orders, it is
    printed (the process is not stopped), and each category lists as many
    names as the count printed for it. *)
Theorem report_order_independent (s : astate) (filename : string)
        (detail : bool)
        (order order' : list (string * FnType))
        (orders orders' : FnType -> list (string * FnType)) :
  table_ok (funcs s) ->
  Z.of_nat (size (funcs s)) <= int64_max ->
  iteration_of s order -> iteration_of s order' ->
  (forall typ, iteration_of s (orders typ)) ->
  (forall typ, iteration_of s (orders' typ)) ->
  report filename detail order orders = report filename detail order' orders'
  /\ is_Some (report filename detail order orders)
  /\ exists lv ns short long,
      analyze_entries order = Counts lv ns short long
      /\ Z.of_nat (length (detail_names Leaf (orders Leaf))) = lv
      /\ Z.of_nat (length (detail_names NoSplit (orders NoSplit))) = ns
      /\ Z.of_nat (length (detail_names SplitSmall (orders SplitSmall))) = short
      /\ Z.of_nat (length (detail_names SplitLarge (orders SplitLarge))) = long.
Proof.
  intros Hok Hsz Ho Ho' Hos Hos'.
  destruct (analyze_entries_tallies s order Ho Hok Hsz) as [Ha _].
  destruct (analyze_entries_tallies s order' Ho' Hok Hsz) as [Ha' _].
  assert (Hd : detail_text orders = detail_text orders').
  { unfold detail_text. simpl.
    now rewrite !(detail_names_order s _ _ (Hos _)),
      !(detail_names_order s _ _ (Hos' _)). }
  unfold report. rewrite Ha, Ha', Hd.
  split; [reflexivity|]. split; [eauto|].
  eexists _, _, _, _. split; [reflexivity|].
  assert (Hlen : forall typ,
            Z.of_nat (length (detail_names typ (orders typ)))
            = tally typ (funcs s)).
  { intros typ. unfold detail_names, sort_Strings, tally.
    rewrite merge_sort_Permutation, length_collect.
    apply count_of_Permutation, Hos. }
  now rewrite !Hlen.
Qed.

Lemma report_order_independent_witness :
  report "a.out" true (map_to_list (funcs (examineLines stream_a_a_b_b)))
         (λ _, map_to_list (funcs (examineLines stream_a_a_b_b)))
  = report "a.out" true
           (reverse (map_to_list (funcs (examineLines stream_a_a_b_b))))
           (λ _, reverse (map_to_list (funcs (examineLines stream_a_a_b_b)))).
Proof.
  apply (report_order_independent (examineLines stream_a_a_b_b)).
  - apply (bool_decide_unpack _). vm_compute. reflexivity.
  - vm_compute. discriminate.
  - unfold iteration_of. reflexivity.
  - unfold iteration_of. apply reverse_Permutation.
  - intros _. unfold iteration_of. reflexivity.
  - intros _. unfold iteration_of. apply reverse_Permutation.
Defined.

(** ** One kind per line *)

(** X20: although the loop tests every line for a function start and
    for the call patterns independently, no line is both: a function-start
    line sets no flag, and a PLT jump is neither a direct nor a generic
    call. *)
Theorem line_kinds_exclusive (line : string) :
  is_fnstart line && is_call line = false
  /\ is_pltjump line
     && (bool_decide (is_Some (dircall_target line)) || is_anycall line)
     = false.
Proof.
  split.
  - destruct (is_fnstart line) eqn:E; [|reflexivity].
    destruct (fnstart_no_call line E) as (Hp & Hd & Ha).
    unfold is_call. rewrite Hp, Hd, Ha.
    now rewrite bool_decide_eq_false_2 by (intros [? ?]; discriminate).
  - destruct (is_pltjump line) eqn:E; [|reflexivity].
    destruct (pltjump_no_other line E) as (_ & Hd & Ha).
    rewrite Hd, Ha.
    now rewrite bool_decide_eq_false_2 by (intros [? ?]; discriminate).
Qed.

(** ** The category is never below that of the body *)

Lemma disposition_at_least (a b c x y z : bool) :
  FnType_le
    (if y then SplitLarge else if x then SplitSmall
     else if z then NoSplit else Leaf)
    (if b || y then SplitLarge else if a || x then SplitSmall
     else if c || z then NoSplit else Leaf).
Proof.
  unfold FnType_le. destruct a, b, c, x, y, z; simpl; lia.
Qed.

(** X21: whatever precedes a function, the category computed for it is
    at least the category of its body in the order Leaf < NoSplit <
    SplitSmall < SplitLarge; so a function whose body calls the long
    helper is always SplitLarge. *)
Theorem category_at_least_body (pre : list string) (start : string)
        (body : list string) :
  Forall (fun l => is_fnstart l = false) body ->
  let sc := scanLines (pre ++ start :: body) in
  FnType_le (body_category body) (disposition (state sc))
  /\ (existsb (calls "__morestack_non_split") body = true ->
      disposition (state sc) = SplitLarge).
Proof.
  intros Hbody sc. unfold sc, scanLines.
  rewrite scanFrom_app.
  change (scanFrom (scanFrom init_scan pre) (start :: body))
    with (scanFrom (scanLine (scanFrom init_scan pre) start) body).
  rewrite (scanFrom_summary body _ Hbody).
  unfold disposition, body_category. cbn [state seenShort seenLong seenCall].
  split; [apply disposition_at_least|].
  intros ->. now rewrite orb_true_r.
Qed.

Lemma category_at_least_body_witness :
  FnType_le SplitSmall
    (disposition (state (scanLines (stream_early_long body_short_generic)))).
Proof.
  destruct (category_at_least_body
              [insn "    0ff0:" "callq  2000 <__morestack_non_split>"]
              "0000000000001000 <foo>:" body_short_generic) as [H _].
  - forall_compute.
  - vm_compute in H. vm_compute. exact H.
Defined.

(** ** Synthetic keys *)

Lemma pretty_N_char_no_percent x :
  Ascii.eqb "%"%char (pretty_N_char x) = false.
Proof. unfold pretty_N_char. now repeat case_match. Qed.

Lemma has_percent_String c s :
  has_percent (String c s) = Ascii.eqb "%"%char c || has_percent s.
Proof. reflexivity. Qed.

Lemma pretty_N_go_no_percent x : forall s,
  has_percent s = false -> has_percent (pretty_N_go x s) = false.
Proof.
  induction (N.lt_wf_0 x) as [x _ IH]; intros s Hs.
  assert (x = 0 \/ 0 < x)%N as [->|Hpos] by lia.
  - now rewrite pretty_N_go_0.
  - rewrite pretty_N_go_step by assumption. apply IH.
    + now apply N.div_lt.
    + now rewrite has_percent_String, pretty_N_char_no_percent, Hs.
Qed.

Lemma pretty_N_no_percent (x : N) : has_percent (pretty x) = false.
Proof.
  unfold pretty, pretty_N. case_decide; [reflexivity|].
  now apply pretty_N_go_no_percent.
Qed.

Lemma pretty_Z_no_percent (n : Z) : has_percent (pretty n) = false.
Proof.
  unfold pretty, pretty_Z. destruct n as [|p|p]; [reflexivity|..].
  - apply (pretty_N_no_percent (Npos p)).
  - unfold has_percent. rewrite chars_append, existsb_app. simpl.
    apply (pretty_N_no_percent (Npos p)).
Qed.

Lemma split_at_last {A} (x : A) (l1 l2 r1 r2 : list A) :
  x ∉ r1 -> x ∉ r2 ->
  l1 ++ x :: r1 = l2 ++ x :: r2 -> l1 = l2 /\ r1 = r2.
Proof.
  intros H1 H2. revert l2.
  induction l1 as [|a l1 IH]; intros [|b l2] E; simpl in E.
  - now injection E.
  - injection E as -> ->. exfalso. apply H1. set_solver.
  - injection E as -> <-. exfalso. apply H2. set_solver.
  - injection E as -> E. destruct (IH l2 E) as [-> ->]. auto.
Qed.

Lemma no_percent_not_elem s : has_percent s = false -> "%"%char ∉ chars s.
Proof.
  unfold has_percent. intros H Hin.
  assert (existsb (Ascii.eqb "%"%char) (chars s) = true); [|congruence].
  apply existsb_exists. exists "%"%char.
  split; [now apply list_elem_of_In|apply Ascii.eqb_refl].
Qed.

Lemma chars_inj s1 s2 : chars s1 = chars s2 -> s1 = s2.
Proof.
  intros H. rewrite <- (text_chars s1), <- (text_chars s2). now rewrite H.
Qed.

(** X22: a synthetic key tells the name and the counter value it was
    made from: the key format [name%number] is injective, also for names
    that hold a percent sign themselves, so two collisions write the same
    key only with the same name and the same counter value. *)
Theorem collision_name_inj (f g : string) (n m : Z) :
  collision_name f n = collision_name g m -> f = g /\ n = m.
Proof.
  intros E. apply (f_equal chars) in E.
  unfold collision_name in E. rewrite !chars_append in E. simpl in E.
  apply split_at_last in E as [Ef En].
  - split; [now apply chars_inj|].
    apply chars_inj in En. now apply (inj pretty) in En.
  - apply no_percent_not_elem, pretty_Z_no_percent.
  - apply no_percent_not_elem, pretty_Z_no_percent.
Qed.

Lemma collision_name_inj_witness : "a%1" = "a%1" /\ 2 = 2.
Proof.
  apply (collision_name_inj "a%1" "a%1" 2 2). reflexivity.
Defined.

(** ** Streams of functions with different names *)

Lemma finish_is_next_state sc line :
  is_fnstart line = true -> state (scanLine sc line) = finish sc.
Proof. intros H. now destruct (scanLine_fnstart sc line H) as (-> & _). Qed.

Lemma block_ok_start fb : block_ok fb -> is_fnstart (fb_start fb) = true.
Proof. intros [H _]. unfold is_fnstart, is_match. now rewrite H. Qed.

Lemma blocks_lines_snoc fbs fb :
  blocks_lines (fbs ++ [fb]) = blocks_lines fbs ++ fb_start fb :: fb_body fb.
Proof.
  unfold blocks_lines. rewrite map_app, concat_app. simpl.
  now rewrite app_nil_r.
Qed.

Lemma scan_block l fb :
  block_ok fb ->
  let sc := scanLines (l ++ fb_start fb :: fb_body fb) in
  curfunc sc = fb_name fb
  /\ funcs (state sc) = funcs (finish (scanLines l))
  /\ collisions (state sc) = collisions (finish (scanLines l))
  /\ (flags_clear (finish (scanLines l)) ->
      disposition (state sc) = body_category (fb_body fb)).
Proof.
  intros Hok sc. pose proof (block_ok_start fb Hok) as Hst.
  destruct Hok as [Hm Hb]. unfold sc, scanLines. rewrite scanFrom_app.
  change (scanFrom (scanFrom init_scan l) (fb_start fb :: fb_body fb))
    with (scanFrom (scanLine (scanLines l) (fb_start fb)) (fb_body fb)).
  destruct (scanLine_fnstart (scanLines l) (fb_start fb) Hst) as (_ & _ & Hm').
  assert (Hn : curfunc (scanLine (scanLines l) (fb_start fb)) = fb_name fb)
    by congruence.
  destruct (scanFrom_body (fb_body fb) (scanLine (scanLines l) (fb_start fb)) Hb)
    as (E1 & E2 & E3 & _). cbv zeta in *.
  rewrite E1, E2, E3, Hn, (finish_is_next_state _ _ Hst).
  repeat split. intros Hc. apply body_disposition; [|exact Hb].
  now rewrite (finish_is_next_state _ _ Hst).
Qed.

Lemma scan_blocks pre fbs :
  Forall (fun l => is_fnstart l = false) pre ->
  existsb is_call pre = false ->
  Forall block_ok fbs ->
  NoDup (map fb_name fbs) ->
  let s := examineLines (pre ++ blocks_lines fbs) in
  funcs s = list_to_map (map block_entry fbs)
  /\ collisions s = 0
  /\ flags_clear s.
Proof.
  intros Hpre Hcalls. induction fbs as [|fb fbs IH] using rev_ind;
    intros Hok Hnd s.
  - unfold s, blocks_lines, examineLines, scanLines, finish. simpl.
    rewrite app_nil_r, (scanFrom_summary pre init_scan Hpre). simpl.
    rewrite Hcalls, !(existsb_calls_is_call _ _ Hcalls). repeat split.
  - apply Forall_app in Hok as [Hok Hfb]. inversion Hfb as [|? ? Hfb' _]; subst.
    rewrite map_app in Hnd. apply NoDup_app in Hnd as (Hnd & Hnew & _).
    destruct (IH Hok Hnd) as (Hf & Hc & Hfl). clear IH.
    unfold s. rewrite blocks_lines_snoc, app_assoc.
    destruct (scan_block (pre ++ blocks_lines fbs) fb Hfb')
      as (Ecur & Ef & Ec & Ed).
    fold (examineLines (pre ++ blocks_lines fbs)) in Ef, Ec, Ed.
    unfold examineLines at 1 2 3. unfold finish.
    destruct (decide _) as [E|_].
    { rewrite Ecur in E. destruct Hfb' as [Hm _].
      apply fnstart_name_nonempty in Hm. now contradict Hm. }
    rewrite Ecur.
    assert (Hnone : funcs (state (scanLines
                ((pre ++ blocks_lines fbs) ++ fb_start fb :: fb_body fb)))
              !! fb_name fb = None).
    { rewrite Ef, Hf. apply not_elem_of_list_to_map_1.
      intros Hin. apply list_elem_of_fmap in Hin as ([k v] & Hk & Hin).
      apply list_elem_of_In, in_map_iff in Hin as (fb' & Hfb'' & Hin).
      injection Hfb'' as <- <-. simpl in Hk.
      apply (Hnew (fb_name fb)).
      - rewrite Hk. apply list_elem_of_In, in_map. exact Hin.
      - simpl. set_solver. }
    destruct (recordFunc_fresh _ _ Hnone) as [-> ->].
    split; [|split; [congruence|apply recordFunc_flags]].
    rewrite Ef, Hf, (Ed Hfl), map_app. simpl.
    symmetry. apply list_to_map_snoc.
    intros Hin. apply not_elem_of_list_to_map_2 in Hin; [exact Hin|].
    now rewrite <- Hf, <- Ef.
Qed.

(** X23: the listing of a binary whose function names are all different,
    with no call before the first function: the final table maps every
    function name to the category of its body and holds nothing else,
    and no collision is counted. *)
Theorem distinct_functions_table (pre : list string) (fbs : list fblock) :
  Forall (fun l => is_fnstart l = false) pre ->
  existsb is_call pre = false ->
  Forall block_ok fbs ->
  NoDup (map fb_name fbs) ->
  let s := examineLines (pre ++ blocks_lines fbs) in
  funcs s = list_to_map (map block_entry fbs)
  /\ collisions s = 0
  /\ (forall fb, fb ∈ fbs ->
        funcs s !! fb_name fb = Some (body_category (fb_body fb)))
  /\ size (funcs s) = length fbs.
Proof.
  intros Hpre Hcalls Hok Hnd s.
  destruct (scan_blocks pre fbs Hpre Hcalls Hok Hnd) as (Hf & Hc & _).
  fold s in Hf, Hc.
  assert (Hkeys : (map block_entry fbs).*1 = map fb_name fbs).
  { clear. induction fbs as [|fb fbs IH]; [reflexivity|]. simpl.
    now rewrite <- IH. }
  split; [exact Hf|]. split; [exact Hc|]. split.
  - intros fb Hin. rewrite Hf. apply elem_of_list_to_map_1.
    + now rewrite Hkeys.
    + apply list_elem_of_In, in_map_iff. exists fb.
      split; [reflexivity|now apply list_elem_of_In].
  - rewrite Hf, map_size_list_to_map by now rewrite Hkeys.
    apply length_map.
Qed.

Lemma distinct_functions_table_witness :
  funcs (examineLines scenarioA) !! "foo" = Some SplitSmall.
Proof.
  pose (foo := {| fb_start := "0000000000001000 <foo>:"; fb_name := "foo";
                  fb_body := ["  1001:" +:+ TAB +:+ "callq  2000 <__morestack>"] |}).
  pose (bar := {| fb_start := "0000000000002000 <bar>:"; fb_name := "bar";
                  fb_body := [] |}).
  destruct (distinct_functions_table [] [foo; bar]) as (_ & _ & H & _).
  - constructor.
  - reflexivity.
  - repeat constructor; try (vm_compute; reflexivity).
  - apply (bool_decide_unpack _). vm_compute. reflexivity.
  - pose proof (H foo (list_elem_of_here foo [bar])) as Hfoo.
    vm_compute in Hfoo. vm_compute. exact Hfoo.
Defined.

(** ** Streams without a percent sign in a name *)

Lemma collision_name_number f g n m :
  collision_name f n = collision_name g m -> n = m.
Proof.
  intros E. apply (f_equal chars) in E.
  unfold collision_name in E. rewrite !chars_append in E. simpl in E.
  apply split_at_last in E as [_ En];
    [|apply no_percent_not_elem, pretty_Z_no_percent..].
  apply chars_inj in En. now apply (inj pretty) in En.
Qed.

Lemma recordFunc_tracked s f :
  has_percent f = false ->
  keys_tracked s ->
  0 <= collisions s < int64_max ->
  keys_tracked (recordFunc s f)
  /\ size (funcs (recordFunc s f)) = S (size (funcs s)).
Proof.
  intros Hf Ht Hc. destruct (funcs s !! f) as [odisp|] eqn:E.
  - destruct (recordFunc_collision s f odisp E) as [Ef Ec].
    rewrite add64_succ in Ef, Ec by (unfold int64_min; lia).
    assert (Hnew : funcs s !! collision_name f (collisions s + 1) = None).
    { destruct (funcs s !! collision_name f (collisions s + 1)) eqn:Ek;
        [|reflexivity]. exfalso.
      destruct (Ht (collision_name f (collisions s + 1)))
        as [Hp|(g & n & Hk & Hn)]; [eauto| |].
      - now rewrite collision_name_percent in Hp.
      - apply collision_name_number in Hk. lia. }
    split.
    + intros k Hk. rewrite Ef in Hk. rewrite Ec.
      destruct (decide (collision_name f (collisions s + 1) = k)) as [<-|Hne].
      * right. exists f, (collisions s + 1). split; [reflexivity|lia].
      * rewrite lookup_insert_ne in Hk by assumption.
        destruct (Ht k Hk) as [Hp|(g & n & -> & Hn)]; [now left|].
        right. exists g, n. split; [reflexivity|lia].
    + rewrite Ef. now apply map_size_insert_None.
  - destruct (recordFunc_fresh s f E) as [Ef Ec]. split.
    + intros k Hk. rewrite Ef in Hk. rewrite Ec.
      destruct (decide (f = k)) as [<-|Hne]; [now left|].
      rewrite lookup_insert_ne in Hk by assumption. now apply Ht.
    + rewrite Ef. now apply map_size_insert_None.
Qed.

Lemma running_plain l :
  Forall (fun n => has_percent n = false) (function_names l) ->
  Z.of_nat (functions_seen l) < int64_max ->
  keys_tracked (state (scanLines l))
  /\ size (funcs (state (scanLines l))) = (functions_seen l - 1)%nat.
Proof.
  induction l as [|x l IH] using rev_ind; intros Hpl Hmax.
  { split; [|reflexivity]. intros k [v Hk]. unfold scanLines in Hk.
    simpl in Hk. now rewrite lookup_empty in Hk. }
  assert (Hmax' : Z.of_nat (functions_seen l) < int64_max).
  { destruct (functions_seen_snoc l x) as [E|E]; rewrite E in Hmax; lia. }
  destruct (scan_step l x) as [(En & _ & Ef & Ec)|(nm & _ & En & _ & Es)].
  { unfold functions_seen in *. rewrite En in *.
    destruct (IH Hpl Hmax') as [Ht Hs]. split; [|now rewrite Ef].
    intros k Hk. rewrite Ef in Hk. rewrite Ec. now apply Ht. }
  assert (Hfs : functions_seen (l ++ [x]) = S (functions_seen l)).
  { unfold functions_seen. rewrite En, length_app. simpl. lia. }
  rewrite En in Hpl. apply Forall_app in Hpl as [Hpl _].
  destruct (IH Hpl Hmax') as [Ht Hs]. rewrite Es, Hfs.
  destruct (decide (curfunc (scanLines l) = "")) as [E|E].
  - rewrite (no_function_seen l E) in *. now split.
  - pose proof (open_function_seen l E) as Hpos.
    destruct (running_counter l) as [Hc _]; [lia|].
    destruct (recordFunc_tracked (state (scanLines l)) (curfunc (scanLines l)))
      as [Ht' Hs']; [|exact Ht|lia|].
    + exact (proj1 (Forall_forall _ _) Hpl _ (curfunc_is_name l E)).
    + split; [exact Ht'|]. rewrite Hs', Hs. lia.
Qed.

(** X24: entries are lost only to names with a percent sign: in a
    stream (with fewer than 2^63-1 function starts) where no name on a
    function-start line holds a percent sign, every function gets an
    entry of its own, under its name or under a fresh synthetic key, so
    the table has as many entries as the stream has function starts. *)
Theorem plain_names_all_counted (lines : list string) :
  Forall (fun n => has_percent n = false) (function_names lines) ->
  Z.of_nat (functions_seen lines) < int64_max ->
  size (funcs (examineLines lines)) = functions_seen lines.
Proof.
  intros Hpl Hmax. destruct (running_plain lines Hpl Hmax) as [Ht Hs].
  unfold examineLines, finish.
  destruct (decide (curfunc (scanLines lines) = "")) as [E|E].
  - rewrite Hs, (no_function_seen lines E). reflexivity.
  - pose proof (open_function_seen lines E) as Hpos.
    destruct (running_counter lines) as [Hc _]; [lia|].
    destruct (recordFunc_tracked (state (scanLines lines))
                (curfunc (scanLines lines))) as [_ Hs']; [|exact Ht|lia|].
    + exact (proj1 (Forall_forall _ _) Hpl _ (curfunc_is_name lines E)).
    + rewrite Hs', Hs. lia.
Qed.

Lemma plain_names_all_counted_witness :
  size (funcs (examineLines stream_a_a_b_b)) = functions_seen stream_a_a_b_b.
Proof.
  apply plain_names_all_counted.
  - vm_compute. repeat constructor.
  - vm_compute. reflexivity.
Defined.
